(** * SpfxItemOrderFieldCustomizer: the row-order reconciler

    A shallow embedding of
    [src/samples/jquery-field-itemorder/src/extensions/spfxItemOrder/SpfxItemOrderFieldCustomizer.ts]:
    the two static array scans [hasChanged] and [changedRows], the
    instance methods [onOrderChanged] and [saveChanges] that drive them
    against the customizer's fields, the jQuery UI sortable and the PnP
    batch, and the life cycle around them: [onInit], [onRenderCell] with
    its debouncing timeout, and [onCellsRendered]. *)

From Stdlib Require Import String.
From Stdlib Require Import List ZArith Bool Lia Permutation Sorted.
Import ListNotations.

(** ** JavaScript numbers and array reads *)

(** The order arrays hold what [parseInt] returns on a [data-list-index]
    attribute: an integer, or [NaN] when the attribute does not parse. *)
Inductive number : Type :=
| Int (z : Z)
| NaN.

Definition is_integer (v : number) : Prop :=
  match v with Int _ => True | NaN => False end.

(** [a === b] on numbers: by value, and [NaN] equals nothing. *)
Definition number_seq (a b : number) : bool :=
  match a, b with
  | Int x, Int y => Z.eqb x y
  | _, _ => false
  end.

(** [arr[i]] on an [Array<number>]: [None] is JavaScript's [undefined],
    the result of a read past the end. *)
Definition aget (arr : list number) (i : nat) : option number := nth_error arr i.

(** [x === y] and [x !== y] on the result of two array reads:
    [undefined] equals only [undefined]. *)
Definition strict_eq (x y : option number) : bool :=
  match x, y with
  | Some a, Some b => number_seq a b
  | None, None => true
  | _, _ => false
  end.

Definition strict_neq (x y : option number) : bool := negb (strict_eq x y).

(** ** The static scans *)

(** Modelled from the spec: the interface file [./IChangedRow] is not part
    of the sources; its two fields are the ones [changedRows] fills in, the
    spec's ChangeEntry [{ originalIndex, newPosition }]: the original list
    index of a row and its current position. *)
Record IChangedRow : Type := mkChangedRow {
  listIndex : number;
  position : nat
}.

(** The loop of [hasChanged], entered at index [i]; [rest] is [newOrder]
    from index [i] on, so that its head is [newOrder[i]] and the loop test
    [i < newOrder.length] fails exactly when [rest] is empty. *)
Fixpoint hasChanged_from (i : nat) (prevOrder rest : list number) : bool :=
  match rest with
  | [] => false
  | v :: rest' =>
      if strict_neq (Some v) (aget prevOrder i)
      then true
      else hasChanged_from (S i) prevOrder rest'
  end.

Definition hasChanged (prevOrder newOrder : list number) : bool :=
  hasChanged_from 0 prevOrder newOrder.

(** The loop of [changedRows], with the array [diffRows] under construction;
    [push] appends at the end. *)
Fixpoint changedRows_from (i : nat) (prevOrder rest : list number)
    (diffRows : list IChangedRow) : list IChangedRow :=
  match rest with
  | [] => diffRows
  | v :: rest' =>
      changedRows_from (S i) prevOrder rest'
        (if strict_neq (Some v) (aget prevOrder i)
         then diffRows ++ [mkChangedRow v i]
         else diffRows)
  end.

Definition changedRows (prevOrder newOrder : list number) : list IChangedRow :=
  changedRows_from 0 prevOrder newOrder [].

(** ** The customizer instance and its host *)

(** Modelled from the spec: the interface file [./IOrderedRow] is not part
    of the sources; its two fields are the ones [onRenderCell] fills in,
    typed as the spec's RowRecord [{ id: Identifier, orderValue: Number }]. *)
Record IOrderedRow : Type := mkOrderedRow {
  Id : Z;
  Order : Z
}.

(** What the code can throw or be handed as a rejection. *)
Inductive exn : Type :=
| TypeError
| BatchError (code : Z).

(** One [items.getById(itemId).inBatch(itemBatch).update(props)], where
    [props] has the single key [field]. *)
Record ItemUpdate : Type := mkItemUpdate {
  itemId : Z;
  field : string;
  value : Z
}.

(** How the promise of [itemBatch.execute()] settles. *)
Inductive BatchOutcome : Type :=
| Resolved
| Rejected (error : exn).

(** The private fields of the customizer, followed by the parts of the page
    and of the host that its methods read and write. *)
Record World : Type := mkWorld {
  _rowOrder : list number;
  _rowMap : list IOrderedRow;
  _orderField : string;
  (* $(LISTPAGECONTAINER).sortable('toArray', ...) mapped through parseInt *)
  page : list number;
  (* whether the sortable is enabled *)
  sortableEnabled : bool;
  (* rows whose icon was switched to the loading indicator *)
  loadingRows : list number;
  (* the batch made by createBatch, and the batches handed to execute *)
  itemBatch : list ItemUpdate;
  executed : list (list ItemUpdate);
  (* Log.error and console.log *)
  errorLog : list exn;
  consoleAvailable : bool;
  consoleOut : list exn
}.

Inductive completion (A : Type) : Type :=
| Normal (a : A)
| Throw (e : exn).
Arguments Normal {A} a.
Arguments Throw {A} e.

(** A method body: it runs on a world, leaves a world, and either returns
    or throws; what it wrote before a throw stays written. *)
Definition M (A : Type) : Type := World -> completion A * World.

Definition ret {A : Type} (a : A) : M A := fun w => (Normal a, w).

Definition throw {A : Type} (e : exn) : M A := fun w => (Throw e, w).

Definition bind {A B : Type} (c : M A) (k : A -> M B) : M B :=
  fun w =>
    match c w with
    | (Normal a, w') => k a w'
    | (Throw e, w') => (Throw e, w')
    end.

Declare Scope js_scope.
Delimit Scope js_scope with js.
Notation "x <- c ;; k" := (bind c (fun x => k))
  (at level 61, c at next level, right associativity) : js_scope.
Notation "c ;; k" := (bind c (fun _ => k))
  (at level 61, right associativity) : js_scope.
Open Scope js_scope.

Definition gets {A : Type} (f : World -> A) : M A := fun w => (Normal (f w), w).

Definition modify (f : World -> World) : M unit := fun w => (Normal tt, f w).

(** [o.p] where [o] came from an array read: a [TypeError] on [undefined]. *)
Definition member {A : Type} (o : option A) : M A :=
  match o with
  | Some a => ret a
  | None => throw TypeError
  end.

Fixpoint forEach {A : Type} (l : list A) (f : A -> M unit) : M unit :=
  match l with
  | [] => ret tt
  | a :: l' => f a ;; forEach l' f
  end.

(** [this._rowMap[k]] for a number [k]: only an integer inside the array
    names an element. *)
Definition rowMap_at (rowMap : list IOrderedRow) (k : number) : option IOrderedRow :=
  match k with
  | Int z => if Z.ltb z 0 then None else nth_error rowMap (Z.to_nat z)
  | NaN => None
  end.

Definition set_rowOrder (o : list number) (w : World) : World :=
  mkWorld o (_rowMap w) (_orderField w) (page w) (sortableEnabled w)
    (loadingRows w) (itemBatch w) (executed w) (errorLog w)
    (consoleAvailable w) (consoleOut w).

Definition set_sortableEnabled (b : bool) (w : World) : World :=
  mkWorld (_rowOrder w) (_rowMap w) (_orderField w) (page w) b
    (loadingRows w) (itemBatch w) (executed w) (errorLog w)
    (consoleAvailable w) (consoleOut w).

Definition set_loadingRows (l : list number) (w : World) : World :=
  mkWorld (_rowOrder w) (_rowMap w) (_orderField w) (page w) (sortableEnabled w)
    l (itemBatch w) (executed w) (errorLog w)
    (consoleAvailable w) (consoleOut w).

Definition set_itemBatch (b : list ItemUpdate) (w : World) : World :=
  mkWorld (_rowOrder w) (_rowMap w) (_orderField w) (page w) (sortableEnabled w)
    (loadingRows w) b (executed w) (errorLog w)
    (consoleAvailable w) (consoleOut w).

Definition set_executed (bs : list (list ItemUpdate)) (w : World) : World :=
  mkWorld (_rowOrder w) (_rowMap w) (_orderField w) (page w) (sortableEnabled w)
    (loadingRows w) (itemBatch w) bs (errorLog w)
    (consoleAvailable w) (consoleOut w).

Definition set_errorLog (l : list exn) (w : World) : World :=
  mkWorld (_rowOrder w) (_rowMap w) (_orderField w) (page w) (sortableEnabled w)
    (loadingRows w) (itemBatch w) (executed w) l
    (consoleAvailable w) (consoleOut w).

Definition set_consoleOut (l : list exn) (w : World) : World :=
  mkWorld (_rowOrder w) (_rowMap w) (_orderField w) (page w) (sortableEnabled w)
    (loadingRows w) (itemBatch w) (executed w) (errorLog w)
    (consoleAvailable w) l.

Definition getRowOrder : M (list number) := gets page.

Definition sortable_disable : M unit := modify (set_sortableEnabled false).

Definition sortable_enable : M unit := modify (set_sortableEnabled true).

Definition showLoading (k : number) : M unit :=
  modify (fun w => set_loadingRows (loadingRows w ++ [k]) w).

Definition hideLoading : M unit := modify (set_loadingRows []).

Definition createBatch : M unit := modify (set_itemBatch []).

Definition update_inBatch (u : ItemUpdate) : M unit :=
  modify (fun w => set_itemBatch (itemBatch w ++ [u]) w).

Definition execute : M unit :=
  modify (fun w => set_executed (executed w ++ [itemBatch w]) w).

Definition Log_error (e : exn) : M unit :=
  modify (fun w => set_errorLog (errorLog w ++ [e]) w).

Definition console_log (e : exn) : M unit :=
  modify (fun w =>
    if consoleAvailable w then set_consoleOut (consoleOut w ++ [e]) w else w).

(** The body of the [forEach] callback of [saveChanges]. *)
Definition saveRow (row : IChangedRow) : M unit :=
  showLoading (listIndex row) ;;
  rowMap <- gets _rowMap ;;
  orderField <- gets _orderField ;;
  slot <- member (nth_error rowMap (position row)) ;;
  moved <- member (rowMap_at rowMap (listIndex row)) ;;
  update_inBatch (mkItemUpdate (Id moved) orderField (Order slot)).

(** [saveChanges], run up to the point where the promise of [execute] has
    settled as [outcome] and the matching callback has run. *)
Definition saveChanges (outcome : BatchOutcome) : M unit :=
  newOrder <- getRowOrder ;;
  prevOrder <- gets _rowOrder ;;
  let dirtyRows := changedRows prevOrder newOrder in
  createBatch ;;
  forEach dirtyRows saveRow ;;
  execute ;;
  match outcome with
  | Resolved =>
      hideLoading ;;
      modify (set_rowOrder newOrder) ;;
      sortable_enable
  | Rejected error =>
      Log_error error ;;
      console_log error
  end.

Definition onOrderChanged (outcome : BatchOutcome) : M unit :=
  sortable_disable ;;
  newOrder <- getRowOrder ;;
  prevOrder <- gets _rowOrder ;;
  if hasChanged prevOrder newOrder
  then saveChanges outcome
  else sortable_enable.

(** ** The vocabulary of the specification *)

(** The index set [0..N-1] as numbers. *)
Definition index_set (N : nat) : list number :=
  map (fun k => Int (Z.of_nat k)) (seq 0 N).

(** An Ordering: a permutation of [0..N-1], [N] its length. *)
Definition is_ordering (o : list number) : Prop :=
  Permutation o (index_set (length o)).

(** The precondition of the reconciler: two orderings of one length. *)
Definition permutation_pair (baseline observed : list number) : Prop :=
  length baseline = length observed /\
  is_ordering baseline /\ is_ordering observed.

(** [observed == baseline] element-wise. *)
Definition elementwise_equal (baseline observed : list number) : Prop :=
  Forall2 (fun b o => number_seq o b = true) baseline observed.

(** Position [i] differs: [observed[i] !== baseline[i]]. *)
Definition differs_at (baseline observed : list number) (i : nat) : Prop :=
  strict_neq (aget observed i) (aget baseline i) = true.

(** The update of one ChangeEntry in the words of the specification: keyed
    by the identifier of the row originally at [newPosition], carrying the
    order value recorded for the row at [originalIndex]. *)
Definition claimed_update (rowMap : list IOrderedRow) (orderField : string)
    (row : IChangedRow) : option ItemUpdate :=
  match nth_error rowMap (position row), rowMap_at rowMap (listIndex row) with
  | Some atPosition, Some atIndex =>
      Some (mkItemUpdate (Id atPosition) orderField (Order atIndex))
  | _, _ => None
  end.

(** The update [saveRow] puts in the batch for one entry: keyed by the
    identifier of the row at [listIndex], carrying the order value recorded
    for the row at [position]. *)
Definition swapped_update (rowMap : list IOrderedRow) (orderField : string)
    (row : IChangedRow) (u : ItemUpdate) : Prop :=
  exists moved slot,
    rowMap_at rowMap (listIndex row) = Some moved /\
    nth_error rowMap (position row) = Some slot /\
    u = mkItemUpdate (Id moved) orderField (Order slot).

(** A call of a static scan as a completion. Neither body has a [throw]
    or an assertion, and an array read past the end yields [undefined]
    instead of throwing, so the call returns what the scan computes. *)
Definition hasChanged_call (prevOrder newOrder : list number) : completion bool :=
  Normal (hasChanged prevOrder newOrder).

Definition changedRows_call (prevOrder newOrder : list number)
    : completion (list IChangedRow) :=
  Normal (changedRows prevOrder newOrder).

Definition raises {A : Type} (c : completion A) : Prop :=
  match c with
  | Throw _ => True
  | Normal _ => False
  end.

(** The rows every index of which names an element of the row map. *)
Definition in_rowMap (rowMap : list IOrderedRow) (v : number) : Prop :=
  exists z, v = Int z /\ (0 <= z < Z.of_nat (length rowMap))%Z.

(** How many positions of [observed] differ from [baseline], both read
    from their first elements on. *)
Fixpoint mismatches (baseline observed : list number) : nat :=
  match observed with
  | [] => 0
  | v :: observed' =>
      (if strict_neq (Some v) (hd_error baseline) then 1 else 0)
      + mismatches (tl baseline) observed'
  end.

(** A world that differs from [w] in the loading indicators and in the
    batch under construction only. *)
Definition during_batch (w : World) (l : list number) (b : list ItemUpdate) : World :=
  mkWorld (_rowOrder w) (_rowMap w) (_orderField w) (page w) (sortableEnabled w)
    l b (executed w) (errorLog w) (consoleAvailable w) (consoleOut w).

(** An entry both of whose indices name a row of the row map. *)
Definition row_in_rowMap (rowMap : list IOrderedRow) (row : IChangedRow) : Prop :=
  position row < length rowMap /\ in_rowMap rowMap (listIndex row).

(** The world after the callbacks of a settled batch. *)
Definition settled (outcome : BatchOutcome) (newOrder : list number) (w : World)
    : World :=
  match outcome with
  | Resolved =>
      mkWorld newOrder (_rowMap w) (_orderField w) (page w) true
        [] (itemBatch w) (executed w ++ [itemBatch w]) (errorLog w)
        (consoleAvailable w) (consoleOut w)
  | Rejected error =>
      mkWorld (_rowOrder w) (_rowMap w) (_orderField w) (page w)
        (sortableEnabled w) (loadingRows w) (itemBatch w)
        (executed w ++ [itemBatch w]) (errorLog w ++ [error])
        (consoleAvailable w)
        (if consoleAvailable w then consoleOut w ++ [error] else consoleOut w)
  end.

(** ** Concrete inputs *)

Definition ints (l : list Z) : list number := map Int l.

Definition world0 (rowOrder pageOrder : list number) (rowMap : list IOrderedRow)
    : World :=
  mkWorld rowOrder rowMap "Order"%string pageOrder true [] [] [] [] true [].

Definition rows2 : list IOrderedRow :=
  [mkOrderedRow 101 5; mkOrderedRow 202 9].

Definition rows3 : list IOrderedRow :=
  [mkOrderedRow 11 100; mkOrderedRow 22 200; mkOrderedRow 33 300].

(** ** The life cycle around the drops *)

Definition set_rowMap (m : list IOrderedRow) (w : World) : World :=
  mkWorld (_rowOrder w) m (_orderField w) (page w) (sortableEnabled w)
    (loadingRows w) (itemBatch w) (executed w) (errorLog w)
    (consoleAvailable w) (consoleOut w).

Definition set_orderField (f : string) (w : World) : World :=
  mkWorld (_rowOrder w) (_rowMap w) f (page w) (sortableEnabled w)
    (loadingRows w) (itemBatch w) (executed w) (errorLog w)
    (consoleAvailable w) (consoleOut w).

Definition set_page (p : list number) (w : World) : World :=
  mkWorld (_rowOrder w) (_rowMap w) (_orderField w) p (sortableEnabled w)
    (loadingRows w) (itemBatch w) (executed w) (errorLog w)
    (consoleAvailable w) (consoleOut w).

(** The icon [onRenderCell] writes into a cell: the pin that invites to
    drag, or the unpinned one of a user who may not edit. *)
Inductive CellIcon : Type :=
| DragIcon
| DisabledIcon.

(** [event.listItem], read through [getValueByName]. *)
Definition ListItem : Type := string -> Z.

(** The customizer with what the claims leave out: the handle of the
    pending initialisation, the timeouts of the window, the permission of
    the user, and what has been set up and rendered so far. *)
Record Host : Type := mkHost {
  world : World;
  (* undefined, or what setTimeout returned last *)
  _timeoutId_Init : option nat;
  (* the pending timeouts; each of them calls onCellsRendered *)
  timers : list nat;
  (* the handle the next setTimeout returns *)
  nextTimer : nat;
  (* list.permissions.hasPermission(SPPermission.editListItems) *)
  canEdit : bool;
  (* pnp.setup has run *)
  pnpSetup : bool;
  (* the sortable widget exists on the list page *)
  sortableCreated : bool;
  (* the icon of each rendered cell, in rendering order *)
  cells : list CellIcon
}.

Definition with_world (w : World) (h : Host) : Host :=
  mkHost w (_timeoutId_Init h) (timers h) (nextTimer h) (canEdit h)
    (pnpSetup h) (sortableCreated h) (cells h).

(** [this.properties.OrderField || 'Order']: the default replaces
    [undefined] and the empty string, the two falsy values of an optional
    string. *)
Definition orderField_or_default (OrderField : option string) : string :=
  match OrderField with
  | Some f => if String.eqb f EmptyString then "Order"%string else f
  | None => "Order"%string
  end.

Definition onInit (OrderField : option string) (h : Host) : Host :=
  mkHost
    (set_rowMap [] (set_orderField (orderField_or_default OrderField) (world h)))
    (_timeoutId_Init h) (timers h) (nextTimer h) (canEdit h)
    true (sortableCreated h) (cells h).

Definition clearTimeout (t : nat) (h : Host) : Host :=
  mkHost (world h) (_timeoutId_Init h) (remove Nat.eq_dec t (timers h))
    (nextTimer h) (canEdit h) (pnpSetup h) (sortableCreated h) (cells h).

(** [this._timeoutId_Init = setTimeout(...)]. *)
Definition setTimeout_Init (h : Host) : Host :=
  mkHost (world h) (Some (nextTimer h)) (timers h ++ [nextTimer h])
    (S (nextTimer h)) (canEdit h) (pnpSetup h) (sortableCreated h) (cells h).

Definition render_icon (icon : CellIcon) (h : Host) : Host :=
  mkHost (world h) (_timeoutId_Init h) (timers h) (nextTimer h) (canEdit h)
    (pnpSetup h) (sortableCreated h) (cells h ++ [icon]).

(** The record [onRenderCell] pushes for a list item. *)
Definition tracked_row (orderField : string) (listItem : ListItem) : IOrderedRow :=
  mkOrderedRow (listItem "ID"%string) (listItem orderField).

(** [onRenderCell]. The test [if(this._timeoutId_Init)] is one of
    truthiness: [undefined] and the handle 0 both skip [clearTimeout]. *)
Definition onRenderCell (listItem : ListItem) (h : Host) : Host :=
  let h1 :=
    match _timeoutId_Init h with
    | Some (S t) => clearTimeout (S t) h
    | _ => h
    end in
  if canEdit h1 then
    let h2 := render_icon DragIcon h1 in
    let w := world h2 in
    let h3 :=
      with_world
        (set_rowMap (_rowMap w ++ [tracked_row (_orderField w) listItem]) w) h2 in
    setTimeout_Init h3
  else
    render_icon DisabledIcon h1.

(** [onCellsRendered], its callback run at once, the document being ready
    by the time cells are rendered. [.sortable({...})] creates the widget,
    enabled, where there is none, and sets the option on the one that
    exists. *)
Definition onCellsRendered (h : Host) : Host :=
  let w := world h in
  let w1 := if sortableCreated h then w else set_sortableEnabled true w in
  mkHost (set_rowOrder (page w1) w1)
    (_timeoutId_Init h) (timers h) (nextTimer h) (canEdit h)
    (pnpSetup h) true (cells h).

(** What happens to a customizer: a cell is rendered; a timeout fires, the
    page standing in the order [domOrder]; a row is dropped, leaving the
    page in the order [domOrder], and the batch, if one is sent, settles as
    [outcome]. *)
Inductive event : Type :=
| RenderCell (listItem : ListItem)
| TimerFires (t : nat) (domOrder : list number)
| Drop (domOrder : list number) (outcome : BatchOutcome).

(** A timeout fires only while it is pending; [stop] is bound by
    [onCellsRendered] only, and a disabled sortable starts no drag. An
    exception of [onOrderChanged] ends the handler and leaves what it wrote. *)
Definition step (h : Host) (e : event) : Host :=
  match e with
  | RenderCell listItem => onRenderCell listItem h
  | TimerFires t domOrder =>
      if in_dec Nat.eq_dec t (timers h)
      then onCellsRendered (with_world (set_page domOrder (world h))
                              (clearTimeout t h))
      else h
  | Drop domOrder outcome =>
      if sortableCreated h && sortableEnabled (world h)
      then with_world (snd (onOrderChanged outcome (set_page domOrder (world h)))) h
      else h
  end.

Definition run (events : list event) (h : Host) : Host :=
  fold_left step events h.

(** The list items of the cells rendered by a run of events. *)
Fixpoint rendered (events : list event) : list ListItem :=
  match events with
  | [] => []
  | RenderCell listItem :: events' => listItem :: rendered events'
  | _ :: events' => rendered events'
  end.

(** A customizer as constructed, before [onInit]. *)
Definition constructed (mayEdit : bool) (firstTimer : nat) : Host :=
  mkHost (mkWorld [] [] EmptyString [] false [] [] [] [] true [])
    None [] firstTimer mayEdit false false [].

Definition item (id order : Z) : ListItem :=
  fun name => if String.eqb name "ID" then id else order.

(** At most one timeout is pending, and it is the one whose handle the
    customizer holds. *)
Definition debounced (h : Host) : Prop :=
  0 < nextTimer h /\
  (timers h = [] \/
   exists t, 0 < t /\ timers h = [t] /\ _timeoutId_Init h = Some t).

(** ** The scans, position by position *)

Section Scan.

Variable prevOrder : list number.

Lemma changedRows_from_acc (rest : list number) :
  forall i diffRows,
    changedRows_from i prevOrder rest diffRows =
    diffRows ++ changedRows_from i prevOrder rest [].
Proof.
  induction rest as [|v rest IH]; intros i diffRows; simpl.
  - now rewrite app_nil_r.
  - destruct (strict_neq (Some v) (aget prevOrder i)).
    + rewrite (IH (S i) (diffRows ++ _)), (IH (S i) [_]).
      now rewrite <- app_assoc.
    + apply IH.
Qed.

Lemma changedRows_from_cons (i : nat) (v : number) (rest : list number) :
  changedRows_from i prevOrder (v :: rest) [] =
  (if strict_neq (Some v) (aget prevOrder i) then [mkChangedRow v i] else [])
  ++ changedRows_from (S i) prevOrder rest [].
Proof.
  simpl. rewrite changedRows_from_acc.
  now destruct (strict_neq (Some v) (aget prevOrder i)).
Qed.

Lemma changedRows_from_In (rest : list number) :
  forall i e,
    In e (changedRows_from i prevOrder rest []) <->
    exists k, nth_error rest k = Some (listIndex e) /\
              position e = i + k /\
              strict_neq (Some (listIndex e)) (aget prevOrder (i + k)) = true.
Proof.
  induction rest as [|v rest IH]; intros i e.
  - simpl. split; [tauto|]. intros [k [Hk _]]. now destruct k.
  - rewrite changedRows_from_cons, in_app_iff, IH. split.
    + intros [Hin | [k [Hk [Hp Hd]]]].
      * exists 0. rewrite Nat.add_0_r.
        destruct (strict_neq (Some v) (aget prevOrder i)) eqn:E;
          [|contradiction].
        destruct Hin as [<- | []]. simpl. auto.
      * exists (S k). rewrite Nat.add_succ_r. simpl. auto.
    + intros [[|k] [Hk [Hp Hd]]].
      * left. rewrite Nat.add_0_r in *. simpl in Hk. injection Hk as ->.
        rewrite Hd. left. destruct e; simpl in *; now subst.
      * right. exists k. rewrite Nat.add_succ_r in *. simpl in Hk. auto.
Qed.

Lemma changedRows_from_sorted (rest : list number) :
  forall i,
    StronglySorted lt (map position (changedRows_from i prevOrder rest [])) /\
    Forall (fun p => i <= p) (map position (changedRows_from i prevOrder rest [])).
Proof.
  induction rest as [|v rest IH]; intros i.
  - simpl. split; constructor.
  - rewrite changedRows_from_cons. destruct (IH (S i)) as [Hs Hb].
    destruct (strict_neq (Some v) (aget prevOrder i)); simpl.
    + split.
      * constructor; [assumption|].
        eapply Forall_impl; [|exact Hb]. simpl. lia.
      * constructor; [lia|].
        eapply Forall_impl; [|exact Hb]. simpl. lia.
    + split; [assumption|].
      eapply Forall_impl; [|exact Hb]. simpl. lia.
Qed.

Lemma hasChanged_from_spec (rest : list number) :
  forall i,
    hasChanged_from i prevOrder rest =
    Nat.ltb 0 (length (changedRows_from i prevOrder rest [])).
Proof.
  induction rest as [|v rest IH]; intros i.
  - reflexivity.
  - rewrite changedRows_from_cons. simpl.
    destruct (strict_neq (Some v) (aget prevOrder i)); simpl.
    + reflexivity.
    + apply IH.
Qed.

End Scan.

Lemma changedRows_In (prevOrder newOrder : list number) (e : IChangedRow) :
  In e (changedRows prevOrder newOrder) <->
  aget newOrder (position e) = Some (listIndex e) /\
  differs_at prevOrder newOrder (position e).
Proof.
  unfold changedRows, differs_at, aget. rewrite changedRows_from_In. split.
  - intros [k [Hk [Hp Hd]]]. simpl in *. subst k. rewrite Hk. auto.
  - intros [Hk Hd]. exists (position e). simpl. rewrite Hk in Hd. auto.
Qed.

Lemma nil_iff_no_member {A : Type} (l : list A) :
  l = [] <-> forall a, ~ In a l.
Proof.
  split.
  - intros -> a [].
  - destruct l as [|a l]; [reflexivity|]. intros H. destruct (H a (in_eq a l)).
Qed.

Lemma hasChanged_ltb (prevOrder newOrder : list number) :
  hasChanged prevOrder newOrder =
  Nat.ltb 0 (length (changedRows prevOrder newOrder)).
Proof. apply hasChanged_from_spec. Qed.

Lemma hasChanged_false_iff (prevOrder newOrder : list number) :
  hasChanged prevOrder newOrder = false <-> changedRows prevOrder newOrder = [].
Proof.
  rewrite hasChanged_ltb.
  destruct (changedRows prevOrder newOrder); cbn;
    split; intros H; try reflexivity; discriminate H.
Qed.

(** Positions that all agree leave nothing to report. *)
Lemma changedRows_nil_iff (prevOrder newOrder : list number) :
  changedRows prevOrder newOrder = [] <->
  forall i, i < length newOrder ->
            strict_eq (aget newOrder i) (aget prevOrder i) = true.
Proof.
  rewrite nil_iff_no_member. split.
  - intros H i Hi.
    destruct (aget newOrder i) as [v|] eqn:Ev.
    + destruct (strict_eq (Some v) (aget prevOrder i)) eqn:E; [reflexivity|].
      exfalso. apply (H (mkChangedRow v i)). apply changedRows_In.
      unfold differs_at, strict_neq. simpl. rewrite Ev, E. auto.
    + apply nth_error_None in Ev. lia.
  - intros H e He. apply changedRows_In in He. destruct He as [Hk Hd].
    assert (Hlt : position e < length newOrder).
    { apply nth_error_Some. unfold aget in Hk. congruence. }
    unfold differs_at, strict_neq in Hd. rewrite (H _ Hlt) in Hd. discriminate.
Qed.

Lemma number_seq_refl (v : number) : is_integer v -> number_seq v v = true.
Proof. destruct v; simpl; [intros _; apply Z.eqb_refl | tauto]. Qed.

Lemma number_seq_eq (a b : number) : number_seq a b = true -> a = b.
Proof.
  destruct a, b; simpl; try discriminate.
  intros H. apply Z.eqb_eq in H. now subst.
Qed.

Lemma elementwise_equal_nth (baseline observed : list number) :
  elementwise_equal baseline observed ->
  forall i, i < length observed ->
            strict_eq (aget observed i) (aget baseline i) = true.
Proof.
  unfold elementwise_equal, aget.
  induction 1 as [|b o baseline observed Hbo _ IH]; intros i Hi; simpl in *.
  - lia.
  - destruct i as [|i]; simpl; [assumption|]. apply IH. lia.
Qed.

Lemma elementwise_equal_refl (o : list number) :
  Forall is_integer o -> elementwise_equal o o.
Proof.
  unfold elementwise_equal. induction 1; constructor; auto using number_seq_refl.
Qed.

(** Only the reads [prevOrder[i]] at the scanned indices matter. *)
Lemma changedRows_from_ext (p1 p2 rest : list number) :
  forall i,
    (forall k, k < length rest -> aget p1 (i + k) = aget p2 (i + k)) ->
    changedRows_from i p1 rest [] = changedRows_from i p2 rest [].
Proof.
  induction rest as [|v rest IH]; intros i H; [reflexivity|].
  rewrite !changedRows_from_cons.
  assert (H0 : aget p1 i = aget p2 i).
  { rewrite <- (Nat.add_0_r i). apply H. simpl. lia. }
  rewrite H0. f_equal. apply IH. intros k Hk.
  rewrite !Nat.add_succ_l, <- !Nat.add_succ_r. apply H. simpl. lia.
Qed.

Lemma changedRows_firstn (prevOrder newOrder : list number) :
  changedRows prevOrder newOrder =
  changedRows (firstn (length newOrder) prevOrder) newOrder.
Proof.
  apply changedRows_from_ext. intros k Hk. simpl. unfold aget.
  rewrite nth_error_firstn.
  destruct (Nat.ltb_spec k (length newOrder)); [reflexivity | lia].
Qed.

(** ** Counting the differing positions *)

Lemma tl_skipn (i : nat) (l : list number) : tl (skipn i l) = skipn (S i) l.
Proof.
  revert l. induction i as [|i IH]; intros [|a l]; try reflexivity.
  rewrite skipn_cons, IH. reflexivity.
Qed.

Lemma length_changedRows_from (prevOrder rest : list number) :
  forall i,
    length (changedRows_from i prevOrder rest []) =
    mismatches (skipn i prevOrder) rest.
Proof.
  induction rest as [|v rest IH]; intros i; [reflexivity|].
  rewrite changedRows_from_cons, length_app, IH. simpl.
  rewrite hd_error_skipn, tl_skipn. unfold aget.
  now destruct (strict_neq (Some v) (nth_error prevOrder i)).
Qed.

Lemma length_changedRows (prevOrder newOrder : list number) :
  length (changedRows prevOrder newOrder) = mismatches prevOrder newOrder.
Proof. apply length_changedRows_from. Qed.

Lemma mismatches_0_eq (a : list number) :
  forall b, length a = length b -> mismatches a b = 0 -> a = b.
Proof.
  induction a as [|x a IH]; intros [|y b] Hlen Hm; try discriminate Hlen.
  - reflexivity.
  - simpl in Hm, Hlen.
    destruct (strict_neq (Some y) (Some x)) eqn:E; [discriminate Hm|].
    unfold strict_neq in E. apply negb_false_iff in E. simpl in E.
    apply number_seq_eq in E. subst y. f_equal. apply IH; lia.
Qed.

Lemma Permutation_same_tail (x y : number) (l : list number) :
  Permutation (x :: l) (y :: l) -> x = y.
Proof.
  intros H. apply Permutation_length_1.
  apply (Permutation_app_inv_r l [x] [y]). exact H.
Qed.

(** Two permutations of one another that are not the same list disagree
    at two positions or more. *)
Lemma mismatches_Permutation (a : list number) :
  forall b,
    Forall is_integer a -> Permutation a b -> a <> b ->
    2 <= mismatches a b.
Proof.
  induction a as [|x a IH]; intros b Hint Hperm Hne.
  - apply Permutation_nil in Hperm. congruence.
  - destruct b as [|y b].
    + apply Permutation_sym, Permutation_nil in Hperm. discriminate.
    + simpl. inversion Hint as [|? ? Hx Ha]; subst.
      destruct (strict_neq (Some y) (Some x)) eqn:E.
      * assert (Hab : a <> b).
        { intros ->. apply Permutation_same_tail in Hperm. subst y.
          unfold strict_neq in E. simpl in E.
          rewrite number_seq_refl in E by assumption. discriminate. }
        assert (Hlen : length a = length b).
        { apply Permutation_length in Hperm. simpl in Hperm. lia. }
        destruct (mismatches a b) eqn:Em; [|lia].
        exfalso. apply Hab. now apply mismatches_0_eq.
      * unfold strict_neq in E. apply negb_false_iff in E. simpl in E.
        apply number_seq_eq in E. subst y.
        apply Permutation_cons_inv in Hperm.
        simpl. apply IH; [assumption | assumption | congruence].
Qed.

Lemma index_set_integer (N : nat) : Forall is_integer (index_set N).
Proof.
  unfold index_set. apply Forall_forall. intros v Hv.
  apply in_map_iff in Hv. destruct Hv as [k [<- _]]. exact I.
Qed.

Lemma is_ordering_integer (o : list number) :
  is_ordering o -> Forall is_integer o.
Proof.
  intros H. eapply Permutation_Forall; [|apply index_set_integer].
  apply Permutation_sym. exact H.
Qed.

Lemma permutation_pair_Permutation (a b : list number) :
  permutation_pair a b -> Permutation a b.
Proof.
  intros [Hlen [Ha Hb]]. unfold is_ordering in *.
  rewrite Hlen in Ha. eapply Permutation_trans; [exact Ha|].
  apply Permutation_sym. exact Hb.
Qed.

(** ** Running [saveChanges] *)

Lemma saveRow_run (row : IChangedRow) (w : World) :
  saveRow row w =
  match nth_error (_rowMap w) (position row),
        rowMap_at (_rowMap w) (listIndex row) with
  | Some slot, Some moved =>
      (Normal tt,
       during_batch w (loadingRows w ++ [listIndex row])
         (itemBatch w ++ [mkItemUpdate (Id moved) (_orderField w) (Order slot)]))
  | _, _ =>
      (Throw TypeError,
       during_batch w (loadingRows w ++ [listIndex row]) (itemBatch w))
  end.
Proof.
  destruct w. unfold saveRow, showLoading, update_inBatch, bind, gets, modify,
    member, during_batch. simpl.
  destruct (nth_error _rowMap0 (position row)); simpl; [|reflexivity].
  destruct (rowMap_at _rowMap0 (listIndex row)); reflexivity.
Qed.

(** Whatever the rows, the callback writes to the loading indicators and
    to the batch only. *)
Lemma forEach_saveRow_frame (rows : list IChangedRow) :
  forall w, exists r l b, forEach rows saveRow w = (r, during_batch w l b).
Proof.
  induction rows as [|row rows IH]; intros w.
  - exists (Normal tt), (loadingRows w), (itemBatch w). now destruct w.
  - simpl. unfold bind. rewrite saveRow_run.
    destruct (nth_error (_rowMap w) (position row)) as [slot|];
      [destruct (rowMap_at (_rowMap w) (listIndex row)) as [moved|]|].
    + destruct (IH (during_batch w (loadingRows w ++ [listIndex row])
                      (itemBatch w ++ [mkItemUpdate (Id moved) (_orderField w) (Order slot)])))
        as [r [l [b E]]].
      rewrite E. exists r, l, b. reflexivity.
    + eexists _, _, _. reflexivity.
    + eexists _, _, _. reflexivity.
Qed.

Lemma rowMap_at_in (rowMap : list IOrderedRow) (v : number) :
  in_rowMap rowMap v -> exists r, rowMap_at rowMap v = Some r.
Proof.
  intros [z [-> Hz]]. simpl.
  destruct (Z.ltb_spec z 0); [lia|].
  destruct (nth_error rowMap (Z.to_nat z)) as [r|] eqn:E; [now exists r|].
  apply nth_error_None in E. lia.
Qed.

(** When every entry names rows of the row map, the callback never throws
    and appends one update per entry, in order. *)
Lemma forEach_saveRow_ok (rows : list IChangedRow) :
  forall w,
    Forall (row_in_rowMap (_rowMap w)) rows ->
    exists ups,
      Forall2 (swapped_update (_rowMap w) (_orderField w)) rows ups /\
      forEach rows saveRow w =
      (Normal tt,
       during_batch w (loadingRows w ++ map listIndex rows) (itemBatch w ++ ups)).
Proof.
  induction rows as [|row rows IH]; intros w Hrows.
  - exists []. split; [constructor|]. simpl. rewrite !app_nil_r. now destruct w.
  - inversion Hrows as [|? ? [Hpos Hidx] Hrest]; subst.
    destruct (rowMap_at_in _ _ Hidx) as [moved Em].
    destruct (nth_error (_rowMap w) (position row)) as [slot|] eqn:Es;
      [|apply nth_error_None in Es; lia].
    simpl. unfold bind. rewrite saveRow_run, Es, Em.
    destruct (IH (during_batch w (loadingRows w ++ [listIndex row])
                    (itemBatch w ++ [mkItemUpdate (Id moved) (_orderField w) (Order slot)])))
      as [ups [Hups E]]; [exact Hrest|].
    exists (mkItemUpdate (Id moved) (_orderField w) (Order slot) :: ups). split.
    + constructor; [|exact Hups]. exists moved, slot. auto.
    + rewrite E. unfold during_batch. simpl. now rewrite <- !app_assoc.
Qed.

Lemma saveChanges_run (outcome : BatchOutcome) (w : World) :
  saveChanges outcome w =
  match forEach (changedRows (_rowOrder w) (page w)) saveRow
          (during_batch w (loadingRows w) []) with
  | (Normal _, w') => (Normal tt, settled outcome (page w) w')
  | (Throw e, w') => (Throw e, w')
  end.
Proof.
  unfold saveChanges, getRowOrder, createBatch, bind, gets, modify.
  change (set_itemBatch [] w) with (during_batch w (loadingRows w) []).
  destruct (forEach_saveRow_frame (changedRows (_rowOrder w) (page w))
              (during_batch w (loadingRows w) [])) as [r [l [b E]]].
  rewrite E. destruct r as [u|e]; [|reflexivity].
  destruct outcome; destruct w; unfold during_batch; simpl;
    [reflexivity|]. destruct consoleAvailable0; reflexivity.
Qed.

(** When the callbacks all return, each entry has put its update in the
    batch, in order, and switched on one loading indicator. *)
Lemma forEach_saveRow_normal (rows : list IChangedRow) :
  forall w u w',
    forEach rows saveRow w = (Normal u, w') ->
    exists ups,
      Forall2 (swapped_update (_rowMap w) (_orderField w)) rows ups /\
      w' = during_batch w (loadingRows w ++ map listIndex rows) (itemBatch w ++ ups).
Proof.
  induction rows as [|row rows IH]; intros w u w' Hrun.
  - exists []. split; [constructor|]. simpl in *. rewrite !app_nil_r.
    destruct w. unfold ret in Hrun. now inversion Hrun.
  - simpl in Hrun. unfold bind in Hrun. rewrite saveRow_run in Hrun.
    destruct (nth_error (_rowMap w) (position row)) as [slot|] eqn:Es;
      [|discriminate Hrun].
    destruct (rowMap_at (_rowMap w) (listIndex row)) as [moved|] eqn:Em;
      [|discriminate Hrun].
    apply IH in Hrun. destruct Hrun as [ups [Hups ->]].
    exists (mkItemUpdate (Id moved) (_orderField w) (Order slot) :: ups). split.
    + constructor; [|exact Hups]. exists moved, slot. auto.
    + unfold during_batch. simpl. now rewrite <- !app_assoc.
Qed.

Lemma changedRows_in_rowMap (rowMap : list IOrderedRow) (prevOrder newOrder : list number) :
  Forall (in_rowMap rowMap) newOrder ->
  length newOrder <= length rowMap ->
  Forall (row_in_rowMap rowMap) (changedRows prevOrder newOrder).
Proof.
  intros Hin Hlen. apply Forall_forall. intros e He.
  apply changedRows_In in He. destruct He as [Hk _]. unfold aget in Hk.
  split.
  - assert (position e < length newOrder); [|lia].
    apply nth_error_Some. congruence.
  - rewrite Forall_forall in Hin. apply Hin. eapply nth_error_In. exact Hk.
Qed.

(** ** The order diff *)

(** C1: [changedRows] emits the entry [{ listIndex: observed[i], position: i }]
    for the positions [i] of [observed] where [observed[i] !== baseline[i]]
    and for no other, each once, in ascending position. It holds for all
    arrays, in particular for orderings of equal length. *)
Theorem changedRows_one_entry_per_differing_position
    (baseline observed : list number) :
  (forall e,
     In e (changedRows baseline observed) <->
     aget observed (position e) = Some (listIndex e) /\
     differs_at baseline observed (position e)) /\
  StronglySorted lt (map position (changedRows baseline observed)).
Proof.
  split.
  - intros e. apply changedRows_In.
  - apply changedRows_from_sorted.
Qed.

(** C8: for baseline [0,1,2,3] and observed [0,2,1,3] the diff is the two
    entries [{listIndex: 2, position: 1}] and [{listIndex: 1, position: 2}],
    in that order. *)
Theorem changedRows_swap_of_middle_rows :
  changedRows (ints [0; 1; 2; 3]%Z) (ints [0; 2; 1; 3]%Z) =
  [mkChangedRow (Int 2) 1; mkChangedRow (Int 1) 2].
Proof. reflexivity. Qed.

(** C4: [hasChanged] is the test [changedRows(...).length > 0]: it answers
    true exactly when the diff is not empty. It holds for all arrays. *)
Theorem hasChanged_iff_changedRows_nonempty (a b : list number) :
  hasChanged a b = Nat.ltb 0 (length (changedRows a b)) /\
  (hasChanged a b = true <-> changedRows a b <> []).
Proof.
  split; [apply hasChanged_ltb|].
  rewrite <- hasChanged_false_iff. destruct (hasChanged a b); split; congruence.
Qed.

Lemma changedRows_elementwise_equal (baseline observed : list number) :
  elementwise_equal baseline observed -> changedRows baseline observed = [].
Proof.
  intros H. apply changedRows_nil_iff. now apply elementwise_equal_nth.
Qed.

Lemma changedRows_same (o : list number) :
  Forall is_integer o -> changedRows o o = [].
Proof.
  intros Ho. now apply changedRows_elementwise_equal, elementwise_equal_refl.
Qed.

(** C5: the diff of an ordering against itself is empty; more generally the
    diff is empty whenever the two arrays are equal element by element; and
    once a batch has succeeded, [saveChanges] has adopted the observed order
    as the baseline, so that diffing again against the same page finds
    nothing. An ordering holds integers only. *)
Theorem changedRows_converges :
  (forall o, Forall is_integer o -> changedRows o o = []) /\
  (forall baseline observed,
     elementwise_equal baseline observed -> changedRows baseline observed = []) /\
  (forall w w',
     Forall is_integer (page w) ->
     saveChanges Resolved w = (Normal tt, w') ->
     _rowOrder w' = page w /\ page w' = page w /\
     changedRows (_rowOrder w') (page w') = [] /\
     hasChanged (_rowOrder w') (page w') = false).
Proof.
  split; [exact changedRows_same|].
  split; [exact changedRows_elementwise_equal|].
  intros w w' Hint Hrun. rewrite saveChanges_run in Hrun.
  destruct (forEach_saveRow_frame (changedRows (_rowOrder w) (page w))
              (during_batch w (loadingRows w) [])) as [r [l [b E]]].
  rewrite E in Hrun. destruct r as [u|e]; [|discriminate Hrun].
  inversion Hrun; subst w'; simpl.
  repeat split; auto using changedRows_same.
  apply hasChanged_false_iff. now apply changedRows_same.
Qed.

Lemma changedRows_converges_witness :
  changedRows (ints [2; 0; 1]%Z) (ints [2; 0; 1]%Z) = [] /\
  changedRows (ints [0; 1]%Z) (ints [0; 1]%Z) = [] /\
  hasChanged
    (_rowOrder (snd (saveChanges Resolved
                       (world0 (ints [0; 1]%Z) (ints [1; 0]%Z) rows2))))
    (ints [1; 0]%Z) = false.
Proof.
  destruct changedRows_converges as [Hsame [Heq Hsave]].
  split; [|split].
  - apply Hsame. repeat constructor.
  - apply Heq. repeat constructor.
  - apply (Hsave (world0 (ints [0; 1]%Z) (ints [1; 0]%Z) rows2)
             (snd (saveChanges Resolved
                     (world0 (ints [0; 1]%Z) (ints [1; 0]%Z) rows2)))).
    + repeat constructor.
    + reflexivity.
Defined.

(** C9: both scans read the indices below [newOrder.length] and no other.
    What [prevOrder] holds from that index on is ignored; an index of
    [newOrder] past the end of [prevOrder] counts as changed; and when
    [newOrder] is shorter than [prevOrder] and agrees with it wherever it is
    defined, [hasChanged] answers false and [changedRows] is empty. *)
Theorem scans_read_below_newOrder_length (prevOrder newOrder : list number) :
  (Forall (fun e => position e < length newOrder)
     (changedRows prevOrder newOrder) /\
   changedRows prevOrder newOrder =
     changedRows (firstn (length newOrder) prevOrder) newOrder /\
   hasChanged prevOrder newOrder =
     hasChanged (firstn (length newOrder) prevOrder) newOrder) /\
  (forall i v,
     length prevOrder <= i -> aget newOrder i = Some v ->
     In (mkChangedRow v i) (changedRows prevOrder newOrder) /\
     hasChanged prevOrder newOrder = true) /\
  (length newOrder < length prevOrder ->
   (forall i, i < length newOrder ->
              strict_eq (aget newOrder i) (aget prevOrder i) = true) ->
   hasChanged prevOrder newOrder = false /\
   changedRows prevOrder newOrder = []).
Proof.
  split; [split; [|split]|split].
  - apply Forall_forall. intros e He. apply changedRows_In in He.
    destruct He as [Hk _]. apply nth_error_Some. unfold aget in Hk. congruence.
  - apply changedRows_firstn.
  - rewrite !hasChanged_ltb. now rewrite <- changedRows_firstn.
  - intros i v Hi Hv.
    assert (Hin : In (mkChangedRow v i) (changedRows prevOrder newOrder)).
    { apply changedRows_In. unfold differs_at. simpl. split; [exact Hv|].
      rewrite Hv. unfold aget.
      rewrite (proj2 (nth_error_None prevOrder i) Hi). reflexivity. }
    split; [exact Hin|]. rewrite hasChanged_ltb.
    destruct (changedRows prevOrder newOrder); [destruct Hin | reflexivity].
  - intros _ Hagree.
    assert (Hnil : changedRows prevOrder newOrder = [])
      by now apply changedRows_nil_iff.
    split; [now apply hasChanged_false_iff | exact Hnil].
Qed.

Lemma scans_read_below_newOrder_length_witness :
  (In (mkChangedRow (Int 7) 1) (changedRows (ints [0]%Z) (ints [0; 7]%Z)) /\
   hasChanged (ints [0]%Z) (ints [0; 7]%Z) = true) /\
  (hasChanged (ints [0; 1; 2]%Z) (ints [0; 1]%Z) = false /\
   changedRows (ints [0; 1; 2]%Z) (ints [0; 1]%Z) = []).
Proof.
  split.
  - apply (proj1 (proj2 (scans_read_below_newOrder_length
                           (ints [0]%Z) (ints [0; 7]%Z))) 1 (Int 7)).
    + simpl. lia.
    + reflexivity.
  - apply (proj2 (proj2 (scans_read_below_newOrder_length
                           (ints [0; 1; 2]%Z) (ints [0; 1]%Z)))).
    + simpl. lia.
    + intros [|[|i]] Hi; simpl in *; [reflexivity | reflexivity | lia].
Defined.

(** C10: for two orderings of one length that are not the same, the diff
    has two entries or more; for any two orderings of one length its length
    is never exactly one. *)
Theorem changedRows_never_single_entry (a b : list number) :
  permutation_pair a b ->
  (a <> b -> 2 <= length (changedRows a b)) /\
  length (changedRows a b) <> 1.
Proof.
  intros Hpair.
  assert (Hint : Forall is_integer a)
    by (destruct Hpair as [_ [Ha _]]; now apply is_ordering_integer).
  assert (Hperm : Permutation a b) by now apply permutation_pair_Permutation.
  assert (Htwo : a <> b -> 2 <= length (changedRows a b)).
  { intros Hne. rewrite length_changedRows.
    now apply mismatches_Permutation. }
  split; [exact Htwo|]. intros Hone.
  assert (Hne : a <> b).
  { intros <-.
    rewrite (changedRows_same a Hint) in Hone. discriminate. }
  apply Htwo in Hne. lia.
Qed.

Lemma changedRows_never_single_entry_witness :
  (ints [0; 1; 2]%Z <> ints [1; 0; 2]%Z ->
   2 <= length (changedRows (ints [0; 1; 2]%Z) (ints [1; 0; 2]%Z))) /\
  length (changedRows (ints [0; 1; 2]%Z) (ints [1; 0; 2]%Z)) <> 1.
Proof.
  apply (changedRows_never_single_entry (ints [0; 1; 2]%Z) (ints [1; 0; 2]%Z)).
  split; [reflexivity|]. split.
  - apply Permutation_refl.
  - apply perm_swap.
Defined.

(** ** Calls outside the precondition *)

Lemma not_ordering_0_0 : ~ is_ordering (ints [0; 0]%Z).
Proof.
  intros H. apply Permutation_sym in H.
  assert (Hin : In (Int 1) (ints [0; 0]%Z)).
  { eapply Permutation_in; [exact H|]. simpl. auto. }
  simpl in Hin. destruct Hin as [Hin | [Hin | []]]; discriminate Hin.
Qed.

(** C6, as stated, fails: on arrays of different lengths, and on arrays
    that are no permutations, both scans return a value and raise nothing. *)
Lemma scans_return_outside_precondition :
  (~ permutation_pair (ints [0; 1]%Z) (ints [0]%Z) /\
   hasChanged_call (ints [0; 1]%Z) (ints [0]%Z) = Normal false /\
   changedRows_call (ints [0; 1]%Z) (ints [0]%Z) = Normal []) /\
  (~ permutation_pair (ints [0; 0]%Z) (ints [5; 0]%Z) /\
   hasChanged_call (ints [0; 0]%Z) (ints [5; 0]%Z) = Normal true /\
   changedRows_call (ints [0; 0]%Z) (ints [5; 0]%Z) =
     Normal [mkChangedRow (Int 5) 0]) /\
  ~ (forall prevOrder newOrder,
       (raises (hasChanged_call prevOrder newOrder) <->
        ~ permutation_pair prevOrder newOrder) /\
       (raises (changedRows_call prevOrder newOrder) <->
        ~ permutation_pair prevOrder newOrder)).
Proof.
  assert (Hlen : ~ permutation_pair (ints [0; 1]%Z) (ints [0]%Z)).
  { intros [Hl _]. discriminate Hl. }
  split; [|split].
  - split; [exact Hlen|]. split; reflexivity.
  - split; [|split; reflexivity].
    intros [_ [H _]]. exact (not_ordering_0_0 H).
  - intros H. destruct (H (ints [0; 1]%Z) (ints [0]%Z)) as [[_ Hraise] _].
    exact (Hraise Hlen).
Qed.

(** C6, amended: [hasChanged] and [changedRows] check no precondition. On
    all arrays, those of different lengths and those that are no
    permutations included, the call raises nothing and returns the result
    of the scan over the positions of [newOrder]. *)
Theorem scans_never_raise (prevOrder newOrder : list number) :
  ~ raises (hasChanged_call prevOrder newOrder) /\
  ~ raises (changedRows_call prevOrder newOrder) /\
  hasChanged_call prevOrder newOrder =
    Normal (Nat.ltb 0 (length (changedRows prevOrder newOrder))) /\
  exists rows,
    changedRows_call prevOrder newOrder = Normal rows /\
    length rows = mismatches prevOrder newOrder.
Proof.
  split; [|split; [|split]].
  - intros [].
  - intros [].
  - unfold hasChanged_call. now rewrite hasChanged_ltb.
  - exists (changedRows prevOrder newOrder). split; [reflexivity|].
    apply length_changedRows.
Qed.

(** ** The updates of a batch *)

(** C3: with the rows [{Id: 101, Order: 5}] and [{Id: 202, Order: 9}],
    baseline [0,1] and observed [1,0], the batch holds two updates: item 202
    gets the order 5 and item 101 gets the order 9. *)
Theorem saveChanges_swaps_two_rows (outcome : BatchOutcome) :
  let w := world0 (ints [0; 1]%Z) (ints [1; 0]%Z) rows2 in
  fst (saveChanges outcome w) = Normal tt /\
  executed (snd (saveChanges outcome w)) =
    [[mkItemUpdate 202 "Order" 5; mkItemUpdate 101 "Order" 9]] /\
  executed (snd (onOrderChanged outcome w)) =
    [[mkItemUpdate 202 "Order" 5; mkItemUpdate 101 "Order" 9]].
Proof. destruct outcome; repeat split; reflexivity. Qed.

(** C2, as stated, fails: after a rotation of three rows the update of the
    entry [{listIndex: 2, position: 0}] is keyed by item 33, the row of list
    index 2, and carries the order 100 of the row at position 0; the claim
    has it keyed by item 11 and carrying 300. *)
Lemma saveChanges_not_claimed_update :
  let w := world0 (ints [0; 1; 2]%Z) (ints [2; 0; 1]%Z) rows3 in
  let rows := changedRows (_rowOrder w) (page w) in
  rows = [mkChangedRow (Int 2) 0; mkChangedRow (Int 0) 1; mkChangedRow (Int 1) 2] /\
  executed (snd (saveChanges Resolved w)) =
    [[mkItemUpdate 33 "Order" 100; mkItemUpdate 11 "Order" 200;
      mkItemUpdate 22 "Order" 300]] /\
  map (claimed_update (_rowMap w) (_orderField w)) rows =
    [Some (mkItemUpdate 11 "Order" 300); Some (mkItemUpdate 22 "Order" 100);
     Some (mkItemUpdate 33 "Order" 200)] /\
  ~ (forall batch,
       executed (snd (saveChanges Resolved w)) = executed w ++ [batch] ->
       Forall2 (fun row u => claimed_update (_rowMap w) (_orderField w) row = Some u)
         rows batch).
Proof.
  repeat split.
  intros H.
  specialize (H [mkItemUpdate 33 "Order" 100; mkItemUpdate 11 "Order" 200;
                 mkItemUpdate 22 "Order" 300] eq_refl).
  inversion H as [|? ? ? ? Hhead _]. discriminate Hhead.
Qed.

(** C2, amended: for each entry of the diff, in order, [saveChanges] puts in
    the batch one update keyed by the identifier of the row whose list index
    is the entry's [listIndex] (the row that moved), carrying the order value
    recorded for the row whose list index is the entry's [position] (the row
    that was in that slot). It does so whenever it returns, and it returns
    when every index of the observed order names a row of the row map. *)
Theorem saveChanges_update_per_entry (outcome : BatchOutcome) (w : World) :
  (fst (saveChanges outcome w) = Normal tt ->
   exists batch,
     executed (snd (saveChanges outcome w)) = executed w ++ [batch] /\
     Forall2 (swapped_update (_rowMap w) (_orderField w))
       (changedRows (_rowOrder w) (page w)) batch) /\
  (Forall (in_rowMap (_rowMap w)) (page w) ->
   length (page w) <= length (_rowMap w) ->
   fst (saveChanges outcome w) = Normal tt).
Proof.
  rewrite saveChanges_run. split.
  - destruct (forEach (changedRows (_rowOrder w) (page w)) saveRow
                (during_batch w (loadingRows w) [])) as [[u|e] w1] eqn:E;
      [|discriminate].
    intros _. apply forEach_saveRow_normal in E.
    destruct E as [ups [Hups ->]]. exists ups. split.
    + destruct outcome; reflexivity.
    + destruct w; exact Hups.
  - intros Hin Hlen.
    destruct (forEach_saveRow_ok (changedRows (_rowOrder w) (page w))
                (during_batch w (loadingRows w) [])) as [ups [_ E]].
    + destruct w. now apply changedRows_in_rowMap.
    + rewrite E. reflexivity.
Qed.

Lemma saveChanges_update_per_entry_witness :
  let w := world0 (ints [0; 1; 2]%Z) (ints [2; 0; 1]%Z) rows3 in
  fst (saveChanges Resolved w) = Normal tt /\
  exists batch,
    executed (snd (saveChanges Resolved w)) = executed w ++ [batch] /\
    Forall2 (swapped_update (_rowMap w) (_orderField w))
      (changedRows (_rowOrder w) (page w)) batch.
Proof.
  intros w.
  assert (Hret : fst (saveChanges Resolved w) = Normal tt).
  { apply (proj2 (saveChanges_update_per_entry Resolved w)).
    - repeat constructor; eexists; (split; [reflexivity | simpl; lia]).
    - simpl. lia. }
  split; [exact Hret|].
  exact (proj1 (saveChanges_update_per_entry Resolved w) Hret).
Defined.

(** ** A batch that fails *)

Lemma saveChanges_Rejected_keeps (error : exn) (w : World) :
  _rowOrder (snd (saveChanges (Rejected error) w)) = _rowOrder w /\
  sortableEnabled (snd (saveChanges (Rejected error) w)) = sortableEnabled w.
Proof.
  rewrite saveChanges_run.
  destruct (forEach_saveRow_frame (changedRows (_rowOrder w) (page w))
              (during_batch w (loadingRows w) [])) as [r [l [b E]]].
  rewrite E. destruct r; split; reflexivity.
Qed.

Lemma saveChanges_Throw_keeps (outcome : BatchOutcome) (w : World) (e : exn) :
  fst (saveChanges outcome w) = Throw e ->
  _rowOrder (snd (saveChanges outcome w)) = _rowOrder w /\
  sortableEnabled (snd (saveChanges outcome w)) = sortableEnabled w /\
  executed (snd (saveChanges outcome w)) = executed w.
Proof.
  rewrite saveChanges_run.
  destruct (forEach_saveRow_frame (changedRows (_rowOrder w) (page w))
              (during_batch w (loadingRows w) [])) as [r [l [b E]]].
  rewrite E. destruct r; [discriminate|]. intros _. repeat split.
Qed.

Lemma onOrderChanged_run (outcome : BatchOutcome) (w : World) :
  onOrderChanged outcome w =
  if hasChanged (_rowOrder w) (page w)
  then saveChanges outcome (set_sortableEnabled false w)
  else (Normal tt, set_sortableEnabled true (set_sortableEnabled false w)).
Proof.
  unfold onOrderChanged, sortable_disable, sortable_enable, getRowOrder,
    bind, gets, modify. simpl.
  destruct (hasChanged (_rowOrder w) (page w)); reflexivity.
Qed.

(** C7: when the batch is rejected, [saveChanges] logs the error and does
    nothing else. The baseline [_rowOrder] stays as it was, and it is
    replaced by the observed order only when the batch has succeeded; one
    batch has been executed and no other (no retry, no compensating batch);
    the loading indicators stay on; and the sortable, disabled by
    [onOrderChanged], is not enabled again. *)
Theorem saveChanges_batch_failure (error : exn) (w : World) :
  let w' := snd (saveChanges (Rejected error) w) in
  (_rowOrder w' = _rowOrder w /\ sortableEnabled w' = sortableEnabled w) /\
  (fst (saveChanges (Rejected error) w) = Normal tt ->
   errorLog w' = errorLog w ++ [error] /\
   consoleOut w' =
     (if consoleAvailable w then consoleOut w ++ [error] else consoleOut w) /\
   executed w' = executed w ++ [itemBatch w'] /\
   loadingRows w' =
     loadingRows w ++ map listIndex (changedRows (_rowOrder w) (page w))) /\
  (hasChanged (_rowOrder w) (page w) = true ->
   _rowOrder (snd (onOrderChanged (Rejected error) w)) = _rowOrder w /\
   sortableEnabled (snd (onOrderChanged (Rejected error) w)) = false) /\
  (forall outcome,
     _rowOrder (snd (saveChanges outcome w)) <> _rowOrder w ->
     outcome = Resolved /\ fst (saveChanges outcome w) = Normal tt) /\
  (fst (saveChanges Resolved w) = Normal tt ->
   _rowOrder (snd (saveChanges Resolved w)) = page w /\
   sortableEnabled (snd (saveChanges Resolved w)) = true).
Proof.
  intros w'. split; [apply saveChanges_Rejected_keeps|].
  split; [|split; [|split]].
  - subst w'. rewrite saveChanges_run.
    destruct (forEach (changedRows (_rowOrder w) (page w)) saveRow
                (during_batch w (loadingRows w) [])) as [[u|e] w1] eqn:E;
      [|discriminate].
    intros _. apply forEach_saveRow_normal in E. destruct E as [ups [_ ->]].
    destruct w; repeat split.
  - intros Hchanged. rewrite onOrderChanged_run, Hchanged.
    destruct (saveChanges_Rejected_keeps error (set_sortableEnabled false w))
      as [Hord Hen].
    rewrite Hord, Hen. split; reflexivity.
  - intros outcome Hmoved.
    destruct (fst (saveChanges outcome w)) as [[]|e] eqn:E.
    + split; [|reflexivity]. destruct outcome as [|err]; [reflexivity|].
      destruct Hmoved. apply saveChanges_Rejected_keeps.
    + destruct Hmoved. eapply saveChanges_Throw_keeps. exact E.
  - rewrite saveChanges_run.
    destruct (forEach_saveRow_frame (changedRows (_rowOrder w) (page w))
                (during_batch w (loadingRows w) [])) as [r [l [b E]]].
    rewrite E. destruct r; [|discriminate]. intros _. split; reflexivity.
Qed.

Lemma saveChanges_batch_failure_witness :
  let w := world0 (ints [0; 1]%Z) (ints [1; 0]%Z) rows2 in
  let w' := snd (saveChanges (Rejected (BatchError 500)) w) in
  (errorLog w' = [BatchError 500] /\
   consoleOut w' = [BatchError 500] /\
   executed w' = [itemBatch w'] /\
   loadingRows w' = ints [1; 0]%Z) /\
  (_rowOrder (snd (onOrderChanged (Rejected (BatchError 500)) w)) = ints [0; 1]%Z /\
   sortableEnabled (snd (onOrderChanged (Rejected (BatchError 500)) w)) = false) /\
  (Resolved = Resolved /\ fst (saveChanges Resolved w) = Normal tt) /\
  (_rowOrder (snd (saveChanges Resolved w)) = ints [1; 0]%Z /\
   sortableEnabled (snd (saveChanges Resolved w)) = true).
Proof.
  intros w w'.
  destruct (saveChanges_batch_failure (BatchError 500) w)
    as [_ [Hlog [Hhandler [Honly Hsuccess]]]].
  split; [|split; [|split]].
  - apply Hlog. reflexivity.
  - apply Hhandler. reflexivity.
  - apply Honly. discriminate.
  - apply Hsuccess. reflexivity.
Defined.

(** ** Drops that change nothing, and drops that cannot be saved *)





Lemma onOrderChanged_not_changed (outcome : BatchOutcome) (w : World) :
  hasChanged (_rowOrder w) (page w) = false ->
  onOrderChanged outcome w = (Normal tt, set_sortableEnabled true w).
Proof.
  intros H. rewrite onOrderChanged_run, H. now destruct w.
Qed.

(** X1: a drop that leaves every row where the baseline has it sends
    nothing: [onOrderChanged] returns, and all it has done is enable the
    sortable again. *)
Theorem onOrderChanged_same_order (outcome : BatchOutcome) (w : World) :
  elementwise_equal (_rowOrder w) (page w) ->
  onOrderChanged outcome w = (Normal tt, set_sortableEnabled true w).
Proof.
  intros Heq. apply onOrderChanged_not_changed.
  apply hasChanged_false_iff. now apply changedRows_elementwise_equal.
Qed.

Lemma onOrderChanged_same_order_witness :
  onOrderChanged Resolved (world0 (ints [1; 0]%Z) (ints [1; 0]%Z) rows2) =
  (Normal tt,
   set_sortableEnabled true (world0 (ints [1; 0]%Z) (ints [1; 0]%Z) rows2)).
Proof.
  apply (onOrderChanged_same_order Resolved
           (world0 (ints [1; 0]%Z) (ints [1; 0]%Z) rows2)).
  repeat constructor.
Defined.






Lemma in_rowMap_integer (rowMap : list IOrderedRow) (o : list number) :
  Forall (in_rowMap rowMap) o -> Forall is_integer o.
Proof.
  intros H. eapply Forall_impl; [|exact H].
  intros v [z [-> _]]. exact I.
Qed.

Lemma Forall2_length_eq {A B : Type} (R : A -> B -> Prop) (l : list A) (l' : list B) :
  Forall2 R l l' -> length l = length l'.
Proof. induction 1; simpl; congruence. Qed.

(** X4: a drop that moved rows, on a page every index of which names a row
    of the row map, and a batch that succeeds: [onOrderChanged] returns; one
    batch has been executed, with one update per differing position; the
    observed order is the new baseline; the loading indicators are off,
    nothing is logged and the sortable is enabled. A second drop on the
    same page then changes nothing at all. *)
Theorem onOrderChanged_success (w : World) :
  hasChanged (_rowOrder w) (page w) = true ->
  Forall (in_rowMap (_rowMap w)) (page w) ->
  length (page w) <= length (_rowMap w) ->
  let w' := snd (onOrderChanged Resolved w) in
  fst (onOrderChanged Resolved w) = Normal tt /\
  (exists batch,
     executed w' = executed w ++ [batch] /\
     length batch = mismatches (_rowOrder w) (page w)) /\
  _rowOrder w' = page w /\ page w' = page w /\
  loadingRows w' = [] /\ errorLog w' = errorLog w /\
  sortableEnabled w' = true /\
  forall outcome, onOrderChanged outcome w' = (Normal tt, w').
Proof.
  intros Hchanged Hin Hlen w'. subst w'.
  rewrite onOrderChanged_run, Hchanged, saveChanges_run.
  destruct (forEach_saveRow_ok (changedRows (_rowOrder w) (page w))
              (during_batch (set_sortableEnabled false w)
                 (loadingRows w) [])) as [ups [Hups E]].
  { simpl. now apply changedRows_in_rowMap. }
  simpl in E. simpl. rewrite E. simpl.
  split; [reflexivity|]. split.
  { exists ups. split; [reflexivity|].
    rewrite <- (Forall2_length_eq _ _ _ Hups). apply length_changedRows. }
  repeat (split; [reflexivity|]).
  intros outcome. rewrite onOrderChanged_not_changed.
  - reflexivity.
  - simpl. apply hasChanged_false_iff, changedRows_same.
    eapply in_rowMap_integer. exact Hin.
Qed.

Lemma onOrderChanged_success_witness :
  let w := world0 (ints [0; 1]%Z) (ints [1; 0]%Z) rows2 in
  let w' := snd (onOrderChanged Resolved w) in
  fst (onOrderChanged Resolved w) = Normal tt /\
  (exists batch,
     executed w' = executed w ++ [batch] /\
     length batch = mismatches (_rowOrder w) (page w)) /\
  _rowOrder w' = page w /\ page w' = page w /\
  loadingRows w' = [] /\ errorLog w' = errorLog w /\
  sortableEnabled w' = true /\
  forall outcome, onOrderChanged outcome w' = (Normal tt, w').
Proof.
  intros w. apply (onOrderChanged_success w).
  - reflexivity.
  - repeat constructor; eexists; (split; [reflexivity | simpl; lia]).
  - simpl. lia.
Defined.

Lemma mismatches_le (a b : list number) : mismatches a b <= length b.
Proof.
  revert a. induction b as [|v b IH]; intros a; simpl; [lia|].
  specialize (IH (tl a)).
  destruct (strict_neq (Some v) (hd_error a)); lia.
Qed.

Lemma index_set_in_rowMap (rowMap : list IOrderedRow) :
  Forall (in_rowMap rowMap) (index_set (length rowMap)).
Proof.
  unfold index_set. apply Forall_forall. intros v Hv.
  apply in_map_iff in Hv. destruct Hv as [k [<- Hk]].
  apply in_seq in Hk. exists (Z.of_nat k). split; [reflexivity | lia].
Qed.

Lemma is_ordering_in_rowMap (rowMap : list IOrderedRow) (o : list number) :
  is_ordering o -> length o = length rowMap -> Forall (in_rowMap rowMap) o.
Proof.
  unfold is_ordering. intros Ho Hlen. rewrite Hlen in Ho.
  eapply Permutation_Forall; [|apply index_set_in_rowMap].
  apply Permutation_sym. exact Ho.
Qed.

(** X5: when the baseline and the observed order are two different
    orderings of the rows of the row map, [saveChanges] returns and its
    batch has two updates at least and one per row at most. *)
Theorem saveChanges_batch_size (outcome : BatchOutcome) (w : World) :
  permutation_pair (_rowOrder w) (page w) ->
  length (page w) = length (_rowMap w) ->
  _rowOrder w <> page w ->
  fst (saveChanges outcome w) = Normal tt /\
  exists batch,
    executed (snd (saveChanges outcome w)) = executed w ++ [batch] /\
    2 <= length batch <= length (page w).
Proof.
  intros Hpair Hlen Hne. rewrite saveChanges_run.
  destruct (forEach_saveRow_ok (changedRows (_rowOrder w) (page w))
              (during_batch w (loadingRows w) [])) as [ups [Hups E]].
  { simpl. apply changedRows_in_rowMap; [|lia].
    apply is_ordering_in_rowMap; [apply Hpair | exact Hlen]. }
  rewrite E. split; [reflexivity|]. exists ups. split.
  - destruct outcome; reflexivity.
  - rewrite <- (Forall2_length_eq _ _ _ Hups), length_changedRows. split.
    + apply mismatches_Permutation.
      * apply is_ordering_integer, Hpair.
      * now apply permutation_pair_Permutation.
      * exact Hne.
    + apply mismatches_le.
Qed.

Lemma saveChanges_batch_size_witness :
  let w := world0 (ints [0; 1; 2]%Z) (ints [2; 0; 1]%Z) rows3 in
  fst (saveChanges Resolved w) = Normal tt /\
  exists batch,
    executed (snd (saveChanges Resolved w)) = executed w ++ [batch] /\
    2 <= length batch <= length (page w).
Proof.
  intros w. apply (saveChanges_batch_size Resolved w).
  - split; [reflexivity|]. split.
    + apply Permutation_refl.
    + unfold is_ordering. simpl.
      apply Permutation_sym.
      apply (perm_trans (perm_skip (Int 0) (perm_swap (Int 2) (Int 1) []))).
      apply perm_swap.
  - reflexivity.
  - discriminate.
Defined.

(** ** The scans from both sides *)

Lemma number_seq_sym (a b : number) : number_seq a b = number_seq b a.
Proof. destruct a, b; simpl; auto using Z.eqb_sym. Qed.

Lemma changedRows_from_positions_sym (a : list number) :
  forall b i pa pb,
    length a = length b -> length pa = i -> length pb = i ->
    map position (changedRows_from i (pb ++ b) a []) =
    map position (changedRows_from i (pa ++ a) b []).
Proof.
  induction a as [|x a IH]; intros [|y b] i pa pb Hlen Hpa Hpb;
    try discriminate Hlen; [reflexivity|].
  rewrite !changedRows_from_cons, !map_app. unfold aget.
  rewrite !nth_error_app2 by lia. rewrite Hpa, Hpb, Nat.sub_diag. simpl.
  f_equal.
  - unfold strict_neq. simpl. rewrite (number_seq_sym x y).
    now destruct (number_seq y x).
  - specialize (IH b (S i) (pa ++ [x]) (pb ++ [y])).
    rewrite <- !app_assoc in IH. simpl in IH. apply IH.
    + simpl in Hlen. lia.
    + rewrite length_app. simpl. lia.
    + rewrite length_app. simpl. lia.
Qed.

(** X6: on two arrays of one length the scans do not depend on which of
    the two is called the baseline: [hasChanged] gives the same answer and
    [changedRows] reports the same positions. *)
Theorem scans_symmetric (a b : list number) :
  length a = length b ->
  hasChanged a b = hasChanged b a /\
  map position (changedRows a b) = map position (changedRows b a).
Proof.
  intros Hlen.
  assert (Hpos : map position (changedRows a b) = map position (changedRows b a)).
  { symmetry. apply (changedRows_from_positions_sym a b 0 [] []); auto. }
  split; [|exact Hpos].
  rewrite !hasChanged_ltb.
  rewrite <- (length_map position (changedRows a b)), Hpos, length_map.
  reflexivity.
Qed.

Lemma scans_symmetric_witness :
  hasChanged (ints [0; 1; 2]%Z) (ints [0; 2; 1]%Z) =
  hasChanged (ints [0; 2; 1]%Z) (ints [0; 1; 2]%Z) /\
  map position (changedRows (ints [0; 1; 2]%Z) (ints [0; 2; 1]%Z)) =
  map position (changedRows (ints [0; 2; 1]%Z) (ints [0; 1; 2]%Z)).
Proof.
  apply (scans_symmetric (ints [0; 1; 2]%Z) (ints [0; 2; 1]%Z)). reflexivity.
Defined.

(** ** Which rows a batch updates *)

Lemma changedRows_from_listIndex (prevOrder rest : list number) :
  forall i,
    incl (map listIndex (changedRows_from i prevOrder rest [])) rest /\
    (NoDup rest ->
     NoDup (map listIndex (changedRows_from i prevOrder rest []))).
Proof.
  induction rest as [|v rest IH]; intros i.
  - simpl. split; [apply incl_refl | intros _; constructor].
  - rewrite changedRows_from_cons, map_app.
    destruct (IH (S i)) as [Hincl Hnodup].
    destruct (strict_neq (Some v) (aget prevOrder i)); simpl.
    + split.
      * intros x [<- | Hx]; [now left | right; now apply Hincl].
      * intros Hnd. inversion Hnd as [|? ? Hv Hrest]; subst.
        constructor; [|now apply Hnodup].
        intros Hin. apply Hv. now apply Hincl.
    + split.
      * intros x Hx. right. now apply Hincl.
      * intros Hnd. inversion Hnd; subst. now apply Hnodup.
Qed.

Lemma rowMap_at_inj (rowMap : list IOrderedRow) (k1 k2 : number)
    (r1 r2 : IOrderedRow) :
  NoDup (map Id rowMap) ->
  rowMap_at rowMap k1 = Some r1 -> rowMap_at rowMap k2 = Some r2 ->
  Id r1 = Id r2 -> k1 = k2.
Proof.
  intros Hnd H1 H2 Hid.
  destruct k1 as [z1|], k2 as [z2|]; simpl in H1, H2; try discriminate.
  destruct (Z.ltb_spec z1 0); [discriminate|].
  destruct (Z.ltb_spec z2 0); [discriminate|].
  assert (Hlt : Z.to_nat z1 < length (map Id rowMap)).
  { rewrite length_map. apply nth_error_Some. congruence. }
  assert (E : Z.to_nat z1 = Z.to_nat z2).
  { apply (proj1 (NoDup_nth_error (map Id rowMap)) Hnd _ _ Hlt).
    rewrite (map_nth_error Id _ _ H1), (map_nth_error Id _ _ H2).
    now rewrite Hid. }
  f_equal. lia.
Qed.

Lemma swapped_updates_NoDup (rowMap : list IOrderedRow) (orderField : string)
    (rows : list IChangedRow) (batch : list ItemUpdate) :
  NoDup (map Id rowMap) ->
  Forall2 (swapped_update rowMap orderField) rows batch ->
  NoDup (map listIndex rows) ->
  NoDup (map itemId batch) /\
  forall u, In u batch ->
            exists row, In row rows /\ swapped_update rowMap orderField row u.
Proof.
  intros Hids. induction 1 as [|row u rows batch Hu _ IH]; intros Hnd.
  - split; [constructor | intros u []].
  - simpl in Hnd. inversion Hnd as [|? ? Hrow Hrows]; subst.
    destruct (IH Hrows) as [IHnd IHrow]. split.
    + simpl. constructor; [|exact IHnd].
      intros Hin. apply in_map_iff in Hin. destruct Hin as [u' [Hid Hu']].
      destruct (IHrow u' Hu') as [row' [Hrow' [m' [s' [Hm' [_ ->]]]]]].
      destruct Hu as [m [s [Hm [_ ->]]]]. simpl in Hid.
      apply Hrow. apply in_map_iff. exists row'. split; [|exact Hrow'].
      eapply rowMap_at_inj; eauto.
    + intros u' [<- | Hu'].
      * exists row. split; [now left | exact Hu].
      * destruct (IHrow u' Hu') as [row' [Hrow' Hsw]].
        exists row'. split; [now right | exact Hsw].
Qed.

(** X7: when the rows of the row map have identifiers of their own and no
    list index stands twice on the page, a batch never updates an item
    twice. *)
Theorem saveChanges_updates_each_item_once (outcome : BatchOutcome) (w : World) :
  NoDup (map Id (_rowMap w)) ->
  NoDup (page w) ->
  fst (saveChanges outcome w) = Normal tt ->
  exists batch,
    executed (snd (saveChanges outcome w)) = executed w ++ [batch] /\
    NoDup (map itemId batch).
Proof.
  intros Hids Hpage. rewrite saveChanges_run.
  destruct (forEach (changedRows (_rowOrder w) (page w)) saveRow
              (during_batch w (loadingRows w) [])) as [[u|e] w1] eqn:E;
    [|discriminate].
  intros _. apply forEach_saveRow_normal in E.
  destruct E as [ups [Hups ->]]. simpl in Hups. exists ups. split.
  - destruct outcome; reflexivity.
  - eapply swapped_updates_NoDup; [exact Hids | exact Hups|].
    now apply changedRows_from_listIndex.
Qed.

Lemma saveChanges_updates_each_item_once_witness :
  let w := world0 (ints [0; 1; 2]%Z) (ints [2; 0; 1]%Z) rows3 in
  exists batch,
    executed (snd (saveChanges Resolved w)) = executed w ++ [batch] /\
    NoDup (map itemId batch).
Proof.
  intros w. apply (saveChanges_updates_each_item_once Resolved w).
  - simpl. repeat constructor; simpl; intuition discriminate.
  - simpl. repeat constructor; simpl; intuition discriminate.
  - reflexivity.
Defined.

(** ** The first drag: order values change hands *)

Lemma index_set_nth (N p : nat) :
  p < N -> nth_error (index_set N) p = Some (Int (Z.of_nat p)).
Proof.
  intros Hp. unfold index_set.
  apply (map_nth_error (fun k => Int (Z.of_nat k))).
  rewrite (nth_error_nth' _ 0) by (rewrite length_seq; exact Hp).
  now rewrite seq_nth.
Qed.

Lemma index_set_In (N : nat) (v : number) :
  In v (index_set N) <-> exists j, j < N /\ v = Int (Z.of_nat j).
Proof.
  unfold index_set. rewrite in_map_iff. split.
  - intros [j [<- Hj]]. apply in_seq in Hj. exists j. split; [lia | reflexivity].
  - intros [j [Hj ->]]. exists j. split; [reflexivity|]. apply in_seq. lia.
Qed.

Lemma NoDup_map_injective {A B : Type} (f : A -> B) (l : list A) :
  (forall x y, f x = f y -> x = y) -> NoDup l -> NoDup (map f l).
Proof.
  intros Hinj. induction 1 as [|a l Ha _ IH]; simpl; constructor; [|exact IH].
  intros Hin. apply in_map_iff in Hin. destruct Hin as [b [Hb Hin]].
  apply Hinj in Hb. now subst.
Qed.

Lemma Int_of_nat_inj (x y : nat) : Int (Z.of_nat x) = Int (Z.of_nat y) -> x = y.
Proof. intros H. injection H as H. lia. Qed.

Lemma index_set_NoDup (N : nat) : NoDup (index_set N).
Proof.
  apply NoDup_map_injective; [exact Int_of_nat_inj | apply seq_NoDup].
Qed.

Lemma StronglySorted_lt_NoDup (l : list nat) : StronglySorted lt l -> NoDup l.
Proof.
  induction 1 as [|a l _ IH Ha]; constructor; [|exact IH].
  intros Hin. rewrite Forall_forall in Ha. specialize (Ha a Hin). lia.
Qed.

Lemma number_seq_Int_false (v : number) (p : nat) :
  is_integer v ->
  number_seq v (Int (Z.of_nat p)) = false <-> v <> Int (Z.of_nat p).
Proof.
  destruct v as [z|]; simpl; [intros _ | tauto].
  rewrite Z.eqb_neq. split; congruence.
Qed.

(** Against the identity baseline, an entry of the diff is a position that
    holds another row than its own. *)
Lemma changedRows_identity_In (N : nat) (newOrder : list number) (e : IChangedRow) :
  length newOrder = N -> Forall is_integer newOrder ->
  In e (changedRows (index_set N) newOrder) <->
  nth_error newOrder (position e) = Some (listIndex e) /\
  listIndex e <> Int (Z.of_nat (position e)).
Proof.
  intros Hlen Hint. rewrite changedRows_In. unfold differs_at, aget.
  split; intros [Hk Hd]; split; try exact Hk.
  - assert (Hp : position e < N)
      by (rewrite <- Hlen; apply nth_error_Some; congruence).
    rewrite Hk, (index_set_nth _ _ Hp) in Hd. unfold strict_neq in Hd. simpl in Hd.
    apply negb_true_iff in Hd. apply number_seq_Int_false in Hd; [exact Hd|].
    rewrite Forall_forall in Hint. eapply Hint, nth_error_In. exact Hk.
  - assert (Hp : position e < N)
      by (rewrite <- Hlen; apply nth_error_Some; congruence).
    rewrite Hk, (index_set_nth _ _ Hp). unfold strict_neq. simpl.
    apply negb_true_iff. apply number_seq_Int_false; [|exact Hd].
    rewrite Forall_forall in Hint. eapply Hint, nth_error_In. exact Hk.
Qed.

(** On the first drag the rows that are reported are the rows whose slots
    are reported. *)
Lemma first_drag_rows_and_slots (N : nat) (newOrder : list number) :
  Permutation newOrder (index_set N) ->
  Permutation
    (map listIndex (changedRows (index_set N) newOrder))
    (map (fun e => Int (Z.of_nat (position e)))
       (changedRows (index_set N) newOrder)).
Proof.
  intros Hperm.
  assert (Hlen : length newOrder = N).
  { apply Permutation_length in Hperm. unfold index_set in Hperm.
    now rewrite length_map, length_seq in Hperm. }
  assert (Hnd : NoDup newOrder).
  { eapply Permutation_NoDup; [apply Permutation_sym; exact Hperm|].
    apply index_set_NoDup. }
  assert (Hint : Forall is_integer newOrder).
  { eapply Permutation_Forall; [apply Permutation_sym; exact Hperm|].
    apply index_set_integer. }
  apply NoDup_Permutation.
  - now apply changedRows_from_listIndex.
  - rewrite <- (map_map position (fun p => Int (Z.of_nat p))).
    apply NoDup_map_injective; [exact Int_of_nat_inj|].
    apply StronglySorted_lt_NoDup, changedRows_from_sorted.
  - intros v. rewrite !in_map_iff. split.
    + intros [e [<- He]].
      apply (changedRows_identity_In _ _ _ Hlen Hint) in He. destruct He as [Hk Hd].
      assert (Hv : In (listIndex e) (index_set N)).
      { eapply Permutation_in; [exact Hperm|]. eapply nth_error_In. exact Hk. }
      apply index_set_In in Hv. destruct Hv as [j [Hj Hv]].
      destruct (nth_error newOrder j) as [u|] eqn:Eu;
        [|apply nth_error_None in Eu; lia].
      exists (mkChangedRow u j). simpl. split; [now rewrite Hv|].
      apply (changedRows_identity_In _ _ _ Hlen Hint). simpl. split; [exact Eu|].
      intros ->. apply Hd. rewrite Hv. do 2 f_equal.
      symmetry. apply (proj1 (NoDup_nth_error newOrder) Hnd).
      * apply nth_error_Some. congruence.
      * now rewrite Eu, Hk, Hv.
    + intros [e [<- He]].
      apply (changedRows_identity_In _ _ _ Hlen Hint) in He. destruct He as [Hk Hd].
      assert (Hp : position e < N)
        by (rewrite <- Hlen; apply nth_error_Some; congruence).
      assert (Hv : In (Int (Z.of_nat (position e))) newOrder).
      { eapply Permutation_in; [apply Permutation_sym; exact Hperm|].
        apply index_set_In. now exists (position e). }
      apply In_nth_error in Hv. destruct Hv as [p Hpv].
      exists (mkChangedRow (Int (Z.of_nat (position e))) p). simpl.
      split; [reflexivity|].
      apply (changedRows_identity_In _ _ _ Hlen Hint). simpl. split; [exact Hpv|].
      intros Heq. apply Int_of_nat_inj in Heq. subst p.
      apply Hd. congruence.
Qed.

Lemma rowMap_at_position (rowMap : list IOrderedRow) (p : nat) :
  rowMap_at rowMap (Int (Z.of_nat p)) = nth_error rowMap p.
Proof.
  simpl. destruct (Z.ltb_spec (Z.of_nat p) 0); [lia|]. now rewrite Nat2Z.id.
Qed.

Lemma swapped_updates_lookup (rowMap : list IOrderedRow) (orderField : string)
    (g : number -> IOrderedRow) (rows : list IChangedRow) (batch : list ItemUpdate) :
  (forall k r, rowMap_at rowMap k = Some r -> g k = r) ->
  Forall2 (swapped_update rowMap orderField) rows batch ->
  Forall2 (fun row r => rowMap_at rowMap (listIndex row) = Some r)
    rows (map g (map listIndex rows)) /\
  map itemId batch = map Id (map g (map listIndex rows)) /\
  map value batch =
    map Order (map g (map (fun e => Int (Z.of_nat (position e))) rows)).
Proof.
  intros Hg. induction 1 as [|row u rows batch Hu _ IH]; simpl.
  - repeat split. constructor.
  - destruct IH as [Hmoved [Hids Hvals]].
    destruct Hu as [m [s [Hm [Hs ->]]]]. simpl.
    rewrite <- rowMap_at_position in Hs.
    rewrite (Hg _ _ Hm), (Hg _ _ Hs), Hids, Hvals.
    repeat split. constructor; [exact Hm | exact Hmoved].
Qed.

(** X8: on the first drag, the baseline being the rows in their own order,
    a batch hands the recorded order values round among the rows it
    updates: [saveChanges] returns, and the values its updates carry are,
    up to their order, the values recorded for the very rows they are
    keyed by. *)
Theorem saveChanges_first_drag_conserves (outcome : BatchOutcome) (w : World) :
  _rowOrder w = index_set (length (_rowMap w)) ->
  Permutation (page w) (index_set (length (_rowMap w))) ->
  fst (saveChanges outcome w) = Normal tt /\
  exists batch moved,
    executed (snd (saveChanges outcome w)) = executed w ++ [batch] /\
    Forall2 (fun row r => rowMap_at (_rowMap w) (listIndex row) = Some r)
      (changedRows (_rowOrder w) (page w)) moved /\
    map itemId batch = map Id moved /\
    Permutation (map value batch) (map Order moved).
Proof.
  intros Hbase Hperm. rewrite saveChanges_run.
  assert (Hlen : length (page w) = length (_rowMap w)).
  { apply Permutation_length in Hperm. unfold index_set in Hperm.
    now rewrite length_map, length_seq in Hperm. }
  destruct (forEach_saveRow_ok (changedRows (_rowOrder w) (page w))
              (during_batch w (loadingRows w) [])) as [ups [Hups E]].
  { simpl. apply changedRows_in_rowMap; [|lia].
    eapply Permutation_Forall; [apply Permutation_sym; exact Hperm|].
    apply index_set_in_rowMap. }
  rewrite E. split; [reflexivity|]. simpl in Hups.
  destruct (swapped_updates_lookup (_rowMap w) (_orderField w)
              (fun k => match rowMap_at (_rowMap w) k with
                        | Some r => r
                        | None => mkOrderedRow 0 0
                        end)
              (changedRows (_rowOrder w) (page w)) ups)
    as [Hmoved [Hids Hvals]]; [|exact Hups|].
  { intros k r Hk. now rewrite Hk. }
  eexists ups, _. split; [destruct outcome; reflexivity|].
  split; [exact Hmoved|]. split; [exact Hids|].
  rewrite Hvals. do 2 apply Permutation_map.
  rewrite Hbase. apply Permutation_sym. now apply first_drag_rows_and_slots.
Qed.

Lemma saveChanges_first_drag_conserves_witness :
  let w := world0 (ints [0; 1; 2]%Z) (ints [2; 0; 1]%Z) rows3 in
  fst (saveChanges Resolved w) = Normal tt /\
  exists batch moved,
    executed (snd (saveChanges Resolved w)) = executed w ++ [batch] /\
    Forall2 (fun row r => rowMap_at (_rowMap w) (listIndex row) = Some r)
      (changedRows (_rowOrder w) (page w)) moved /\
    map itemId batch = map Id moved /\
    Permutation (map value batch) (map Order moved).
Proof.
  intros w. apply (saveChanges_first_drag_conserves Resolved w).
  - reflexivity.
  - simpl. apply Permutation_sym.
    apply (perm_trans (perm_skip (Int 0) (perm_swap (Int 2) (Int 1) []))).
    apply perm_swap.
Defined.

(** ** Rendering, timeouts and drops in any order *)

Lemma onOrderChanged_frame (outcome : BatchOutcome) (w : World) :
  _rowMap (snd (onOrderChanged outcome w)) = _rowMap w /\
  _orderField (snd (onOrderChanged outcome w)) = _orderField w /\
  page (snd (onOrderChanged outcome w)) = page w.
Proof.
  rewrite onOrderChanged_run.
  destruct (hasChanged (_rowOrder w) (page w)); [|now destruct w].
  rewrite saveChanges_run.
  destruct (forEach_saveRow_frame
              (changedRows (_rowOrder (set_sortableEnabled false w))
                 (page (set_sortableEnabled false w)))
              (during_batch (set_sortableEnabled false w)
                 (loadingRows (set_sortableEnabled false w)) []))
    as [r [l [b E]]].
  rewrite E. destruct r; [destruct outcome|]; repeat split.
Qed.

Lemma swapped_update_field (rowMap : list IOrderedRow) (orderField : string)
    (rows : list IChangedRow) (batch : list ItemUpdate) :
  Forall2 (swapped_update rowMap orderField) rows batch ->
  Forall (fun u => field u = orderField) batch.
Proof.
  induction 1 as [|row u rows batch [m [s [_ [_ ->]]]] _ IH]; constructor; auto.
Qed.

(** A drop executes one batch at most, and its updates name [_orderField]. *)
Lemma onOrderChanged_executed (outcome : BatchOutcome) (w : World) :
  executed (snd (onOrderChanged outcome w)) = executed w \/
  exists batch,
    executed (snd (onOrderChanged outcome w)) = executed w ++ [batch] /\
    Forall (fun u => field u = _orderField w) batch.
Proof.
  rewrite onOrderChanged_run.
  destruct (hasChanged (_rowOrder w) (page w)); [|left; now destruct w].
  rewrite saveChanges_run.
  destruct (forEach (changedRows (_rowOrder (set_sortableEnabled false w))
                       (page (set_sortableEnabled false w))) saveRow
              (during_batch (set_sortableEnabled false w)
                 (loadingRows (set_sortableEnabled false w)) []))
    as [[u|e] w1] eqn:E.
  - right. apply forEach_saveRow_normal in E. destruct E as [ups [Hups ->]].
    exists ups. split; [destruct outcome; reflexivity|].
    apply swapped_update_field in Hups. exact Hups.
  - left.
    destruct (forEach_saveRow_frame
                (changedRows (_rowOrder (set_sortableEnabled false w))
                   (page (set_sortableEnabled false w)))
                (during_batch (set_sortableEnabled false w)
                   (loadingRows (set_sortableEnabled false w)) []))
      as [r [l [b E']]].
    rewrite E in E'. inversion E'. reflexivity.
Qed.

Lemma remove_single (t : nat) : remove Nat.eq_dec t [t] = [].
Proof. simpl. destruct (Nat.eq_dec t t); [reflexivity | congruence]. Qed.

Lemma step_debounced (h : Host) (e : event) : debounced h -> debounced (step h e).
Proof.
  intros [Hnext Htimers]. destruct e as [listItem | t domOrder | domOrder outcome].
  - unfold step, onRenderCell.
    assert (Hcleared :
              0 < nextTimer h /\
              timers (match _timeoutId_Init h with
                      | Some (S t) => clearTimeout (S t) h
                      | _ => h
                      end) = [] /\
              nextTimer (match _timeoutId_Init h with
                         | Some (S t) => clearTimeout (S t) h
                         | _ => h
                         end) = nextTimer h).
    { split; [exact Hnext|].
      destruct Htimers as [Hnil | [t [Ht [Hone Hid]]]].
      - destruct (_timeoutId_Init h) as [[|t]|]; simpl; rewrite ?Hnil; auto.
      - rewrite Hid. destruct t as [|t]; [lia|]. simpl.
        rewrite Hone, remove_single. auto. }
    destruct Hcleared as [_ [Hnil Hsame]].
    set (h1 := match _timeoutId_Init h with
               | Some (S t) => clearTimeout (S t) h
               | _ => h
               end) in *.
    destruct (canEdit h1); unfold debounced; simpl; rewrite Hnil, Hsame.
    + split; [lia|]. right. exists (nextTimer h). auto.
    + split; [exact Hnext | now left].
  - unfold step. destruct (in_dec Nat.eq_dec t (timers h)) as [Hin|_];
      [|split; assumption].
    unfold debounced. simpl. split; [exact Hnext|]. left.
    destruct Htimers as [Hnil | [t' [_ [Hone _]]]].
    + rewrite Hnil in Hin. destruct Hin.
    + rewrite Hone in *. destruct Hin as [<- | []]. apply remove_single.
  - unfold step. destruct (sortableCreated h && sortableEnabled (world h));
      split; assumption.
Qed.

Lemma run_debounced (events : list event) :
  forall h, debounced h -> debounced (run events h).
Proof.
  unfold run. induction events as [|e events IH]; intros h Hh; simpl.
  - exact Hh.
  - apply IH. now apply step_debounced.
Qed.

(** X9: the initialisation is debounced. Handles being positive, and no
    timeout pending at the start, then whatever cells are rendered,
    timeouts fire and rows are dropped, one timeout at most is pending, and
    the customizer holds its handle: a burst of rendered cells ends in one
    call of [onCellsRendered]. *)
Theorem at_most_one_timer_pending (events : list event) (h : Host) :
  0 < nextTimer h -> timers h = [] ->
  length (timers (run events h)) <= 1 /\
  forall t, In t (timers (run events h)) ->
            _timeoutId_Init (run events h) = Some t.
Proof.
  intros Hnext Hnil.
  destruct (run_debounced events h) as [_ [Hrun | [t [_ [Hone Hid]]]]].
  - split; [exact Hnext | now left].
  - rewrite Hrun. split; [simpl; lia | intros t []].
  - rewrite Hone. split; [simpl; lia|].
    intros t' [<- | []]. exact Hid.
Qed.

Lemma at_most_one_timer_pending_witness :
  let events := [RenderCell (item 101 5); RenderCell (item 202 9);
                 RenderCell (item 303 7)] in
  let h := onInit None (constructed true 1) in
  length (timers (run events h)) <= 1 /\
  forall t, In t (timers (run events h)) ->
            _timeoutId_Init (run events h) = Some t.
Proof.
  intros events h. apply (at_most_one_timer_pending events h).
  - simpl. lia.
  - reflexivity.
Defined.

(** The handle 0 is falsy: were it handed out, the timeout it names would
    not be cleared by the next cell. *)
Example timer_handle_zero_not_cleared :
  timers (run [RenderCell (item 101 5); RenderCell (item 202 9)]
            (onInit None (constructed true 0))) = [0; 1].
Proof. reflexivity. Qed.

Lemma step_keeps (h : Host) (e : event) :
  canEdit (step h e) = canEdit h /\
  _orderField (world (step h e)) = _orderField (world h).
Proof.
  destruct e as [listItem | t domOrder | domOrder outcome]; simpl.
  - unfold onRenderCell.
    destruct (_timeoutId_Init h) as [[|t]|]; simpl;
      destruct (canEdit h) eqn:E; simpl; rewrite ?E; auto.
  - destruct (in_dec Nat.eq_dec t (timers h)); [|auto].
    simpl. destruct (sortableCreated h); auto.
  - destruct (sortableCreated h && sortableEnabled (world h)); [|auto].
    simpl. split; [reflexivity|].
    now rewrite (proj1 (proj2 (onOrderChanged_frame outcome _))).
Qed.

Lemma step_rowMap_cells (h : Host) (e : event) :
  _rowMap (world (step h e)) =
    _rowMap (world h) ++
    (if canEdit h
     then map (tracked_row (_orderField (world h))) (rendered [e])
     else []) /\
  cells (step h e) =
    cells h ++
    repeat (if canEdit h then DragIcon else DisabledIcon) (length (rendered [e])).
Proof.
  destruct e as [listItem | t domOrder | domOrder outcome]; simpl.
  - unfold onRenderCell.
    destruct (_timeoutId_Init h) as [[|t]|]; simpl;
      destruct (canEdit h); simpl; rewrite ?app_nil_r; auto.
  - destruct (in_dec Nat.eq_dec t (timers h)); simpl;
      destruct (canEdit h), (sortableCreated h); simpl;
      now rewrite !app_nil_r.
  - destruct (sortableCreated h && sortableEnabled (world h)); simpl.
    + rewrite (proj1 (onOrderChanged_frame outcome _)). simpl.
      destruct (canEdit h); now rewrite !app_nil_r.
    + destruct (canEdit h); now rewrite !app_nil_r.
Qed.

Lemma rendered_cons (e : event) (events : list event) :
  rendered (e :: events) = rendered [e] ++ rendered events.
Proof. now destruct e. Qed.

Lemma run_rowMap_cells (events : list event) :
  forall h,
    _rowMap (world (run events h)) =
      _rowMap (world h) ++
      (if canEdit h
       then map (tracked_row (_orderField (world h))) (rendered events)
       else []) /\
    cells (run events h) =
      cells h ++
      repeat (if canEdit h then DragIcon else DisabledIcon)
        (length (rendered events)).
Proof.
  unfold run. induction events as [|e events IH]; intros h.
  - simpl. destruct (canEdit h); now rewrite !app_nil_r.
  - simpl fold_left. destruct (IH (step h e)) as [Hmap Hcells].
    destruct (step_keeps h e) as [Hedit Hfield].
    destruct (step_rowMap_cells h e) as [Hmap1 Hcells1].
    rewrite Hmap, Hcells, Hedit, Hfield, Hmap1, Hcells1, (rendered_cons e events).
    rewrite length_app, repeat_app, <- !app_assoc.
    destruct (canEdit h); [now rewrite map_app | now rewrite !app_nil_r].
Qed.

(** X10: for a user who may edit, the row map is the log of the rendered
    cells. Whatever else happens in between, it holds, in rendering order,
    one record per rendered cell, read from the list item of that cell, and
    nothing is ever removed from it or rewritten in it; each of those cells
    shows the drag icon. *)
Theorem rowMap_logs_rendered_cells (events : list event) (h : Host) :
  canEdit h = true ->
  _rowMap (world (run events h)) =
    _rowMap (world h) ++
    map (tracked_row (_orderField (world h))) (rendered events) /\
  cells (run events h) =
    cells h ++ repeat DragIcon (length (rendered events)).
Proof.
  intros Hedit. destruct (run_rowMap_cells events h) as [Hmap Hcells].
  rewrite Hedit in Hmap, Hcells. auto.
Qed.

Lemma rowMap_logs_rendered_cells_witness :
  let events := [RenderCell (item 101 5); TimerFires 1 (ints [0; 1]%Z);
                 RenderCell (item 202 9); Drop (ints [1; 0]%Z) Resolved;
                 RenderCell (item 101 5)] in
  let h := onInit None (constructed true 1) in
  _rowMap (world (run events h)) =
    _rowMap (world h) ++
    map (tracked_row (_orderField (world h))) (rendered events) /\
  cells (run events h) =
    cells h ++ repeat DragIcon (length (rendered events)).
Proof.
  intros events h. apply (rowMap_logs_rendered_cells events h). reflexivity.
Defined.

Lemma step_without_permission (h : Host) (e : event) :
  canEdit h = false -> sortableCreated h = false -> timers h = [] ->
  world (step h e) = world h /\
  sortableCreated (step h e) = false /\
  timers (step h e) = [].
Proof.
  intros Hedit Hcreated Hnil.
  destruct e as [listItem | t domOrder | domOrder outcome]; simpl.
  - unfold onRenderCell.
    destruct (_timeoutId_Init h) as [[|t]|]; simpl; rewrite Hedit; simpl;
      rewrite ?Hnil; auto.
  - rewrite Hnil. simpl. auto.
  - rewrite Hcreated. simpl. auto.
Qed.

Lemma run_without_permission (events : list event) :
  forall h,
    canEdit h = false -> sortableCreated h = false -> timers h = [] ->
    world (run events h) = world h /\
    sortableCreated (run events h) = false /\
    timers (run events h) = [].
Proof.
  unfold run. induction events as [|e events IH]; intros h Hedit Hcreated Hnil.
  - simpl. auto.
  - simpl.
    destruct (step_without_permission h e Hedit Hcreated Hnil) as [Hw [Hc Ht]].
    destruct (IH (step h e)) as [Hw' [Hc' Ht']]; auto.
    + rewrite (proj1 (step_keeps h e)). exact Hedit.
    + rewrite Hw', Hw. auto.
Qed.

(** X11: a user without the permission to edit list items never sends an
    update. No timeout is set for such a user, so the sortable is never
    created and no drop is handled: whatever the events, the fields of the
    customizer and the executed batches stay as they were, and every
    rendered cell shows the disabled icon. *)
Theorem without_permission_nothing_is_sent (events : list event) (h : Host) :
  canEdit h = false -> sortableCreated h = false -> timers h = [] ->
  world (run events h) = world h /\
  sortableCreated (run events h) = false /\
  timers (run events h) = [] /\
  cells (run events h) =
    cells h ++ repeat DisabledIcon (length (rendered events)).
Proof.
  intros Hedit Hcreated Hnil.
  destruct (run_without_permission events h Hedit Hcreated Hnil)
    as [Hw [Hc Ht]].
  assert (Hcells := proj2 (run_rowMap_cells events h)).
  rewrite Hedit in Hcells. auto.
Qed.

Lemma without_permission_nothing_is_sent_witness :
  let events := [RenderCell (item 101 5); RenderCell (item 202 9);
                 TimerFires 1 (ints [0; 1]%Z); Drop (ints [1; 0]%Z) Resolved] in
  let h := onInit None (constructed false 1) in
  world (run events h) = world h /\
  sortableCreated (run events h) = false /\
  timers (run events h) = [] /\
  cells (run events h) =
    cells h ++ repeat DisabledIcon (length (rendered events)).
Proof.
  intros events h. apply (without_permission_nothing_is_sent events h);
    reflexivity.
Defined.

Lemma orderField_or_default_nonempty (OrderField : option string) :
  orderField_or_default OrderField <> EmptyString.
Proof.
  destruct OrderField as [f|]; simpl; [|discriminate].
  destruct (String.eqb_spec f EmptyString); [discriminate | assumption].
Qed.

Lemma step_executed_field (f : string) (h : Host) (e : event) :
  _orderField (world h) = f ->
  Forall (Forall (fun u => field u = f)) (executed (world h)) ->
  Forall (Forall (fun u => field u = f)) (executed (world (step h e))).
Proof.
  intros Hf Hall. destruct e as [listItem | t domOrder | domOrder outcome]; simpl.
  - unfold onRenderCell.
    destruct (_timeoutId_Init h) as [[|t]|]; simpl;
      destruct (canEdit h) eqn:E; simpl; rewrite ?E; simpl; exact Hall.
  - destruct (in_dec Nat.eq_dec t (timers h)); [|exact Hall].
    simpl. destruct (sortableCreated h); exact Hall.
  - destruct (sortableCreated h && sortableEnabled (world h)); [|exact Hall].
    simpl.
    destruct (onOrderChanged_executed outcome (set_page domOrder (world h)))
      as [E | [batch [E Hbatch]]]; rewrite E; simpl; [exact Hall|].
    apply Forall_app. split; [exact Hall|]. constructor; [|constructor].
    simpl in Hbatch. now rewrite Hf in Hbatch.
Qed.

Lemma run_executed_field (f : string) (events : list event) :
  forall h,
    _orderField (world h) = f ->
    Forall (Forall (fun u => field u = f)) (executed (world h)) ->
    Forall (Forall (fun u => field u = f)) (executed (world (run events h))).
Proof.
  unfold run. induction events as [|e events IH]; intros h Hf Hall; simpl.
  - exact Hall.
  - apply IH.
    + now rewrite (proj2 (step_keeps h e)).
    + now apply step_executed_field.
Qed.

(** X12: the field chosen by [onInit] is the one every update names. It is
    the configured [OrderField], or ['Order'] when none or the empty string
    is configured, so it is never empty; and whatever the events after
    [onInit], each update of each executed batch sets that field. *)
Theorem every_update_names_the_order_field
    (OrderField : option string) (events : list event) (h : Host) :
  executed (world h) = [] ->
  orderField_or_default OrderField <> EmptyString /\
  (forall f, OrderField = Some f -> f <> EmptyString ->
             orderField_or_default OrderField = f) /\
  Forall (Forall (fun u => field u = orderField_or_default OrderField))
    (executed (world (run events (onInit OrderField h)))).
Proof.
  intros Hnone. split; [apply orderField_or_default_nonempty|]. split.
  - intros f -> Hf. simpl.
    destruct (String.eqb_spec f EmptyString); [contradiction | reflexivity].
  - apply run_executed_field; [reflexivity|].
    simpl. rewrite Hnone. constructor.
Qed.

Lemma every_update_names_the_order_field_witness :
  let events := [RenderCell (item 101 5); RenderCell (item 202 9);
                 TimerFires 2 (ints [0; 1]%Z); Drop (ints [1; 0]%Z) Resolved] in
  executed (world (run events (onInit (Some "Rank"%string) (constructed true 1)))) =
    [[mkItemUpdate 202 "Rank" 5; mkItemUpdate 101 "Rank" 9]] /\
  Forall (Forall (fun u => field u = "Rank"%string))
    (executed (world (run events (onInit (Some "Rank"%string) (constructed true 1))))).
Proof.
  intros events. split; [reflexivity|].
  apply (every_update_names_the_order_field (Some "Rank"%string) events
           (constructed true 1)).
  reflexivity.
Defined.

(** X13: [onCellsRendered] takes the order of the page as the baseline.
    When the pending timeout fires and creates the sortable, a row dropped
    back where it was, the page holding integers, sends no batch and leaves
    the sortable enabled. *)
Theorem drop_in_place_after_initialisation
    (t : nat) (domOrder : list number) (outcome : BatchOutcome) (h : Host) :
  In t (timers h) -> sortableCreated h = false ->
  Forall is_integer domOrder ->
  let h' := run [TimerFires t domOrder; Drop domOrder outcome] h in
  _rowOrder (world h') = domOrder /\
  executed (world h') = executed (world h) /\
  sortableCreated h' = true /\
  sortableEnabled (world h') = true.
Proof.
  intros Hin Hcreated Hint. unfold run. simpl.
  destruct (in_dec Nat.eq_dec t (timers h)) as [_|Hnot]; [|contradiction].
  unfold onCellsRendered. simpl. rewrite Hcreated. simpl.
  rewrite onOrderChanged_not_changed.
  - simpl. auto.
  - simpl. apply hasChanged_false_iff. now apply changedRows_same.
Qed.

Lemma drop_in_place_after_initialisation_witness :
  let h := run [RenderCell (item 101 5); RenderCell (item 202 9)]
             (onInit None (constructed true 1)) in
  let h' := run [TimerFires 2 (ints [0; 1]%Z); Drop (ints [0; 1]%Z) Resolved] h in
  _rowOrder (world h') = ints [0; 1]%Z /\
  executed (world h') = executed (world h) /\
  sortableCreated h' = true /\
  sortableEnabled (world h') = true.
Proof.
  intros h.
  apply (drop_in_place_after_initialisation 2 (ints [0; 1]%Z) Resolved h).
  - simpl. auto.
  - reflexivity.
  - repeat constructor.
Defined.
